(** * markov-model: a shallow embedding of [src/markov-model.js]

    The JavaScript class [Markov] is embedded as a record [Model] and a
    small state monad over it: every function of the source that is
    called with [this] becomes a computation of type [M A].

    Modelling conventions.
    - A symbol is a string.  The source uses a symbol as a property
      name of [symbolMap], that is through its string conversion, and
      stores the value itself in [symbols]; the symbols that are not
      strings are treated apart, in the section on raw symbols, on top
      of the methods over strings.
    - [symbolMap] is a plain object: reading a name that
      [Object.prototype] defines, such as "constructor", yields the
      inherited value, so that such a symbol is never interned; the
      table [objectPrototype] lists these names.
    - A plain JavaScript object is an ordered association list [Obj.t]:
      property enumeration order matters for [updateProbabilities], so
      the order of creation is kept and [Obj.ownKeys] enumerates as
      [for ... in] does (array indexes ascending, then the other names
      in creation order).
    - An occurrence count is a JavaScript Number holding an integer; it
      is a [Z] (exact below 2^53) or [NaN].  Probabilities and scores are
      IEEE-754 doubles: Rocq's primitive [float].
    - [Math.random] is an oracle [rand : nat -> float], the [k]-th draw
      of a call being [rand k].
    - A thrown exception is the [Throw] outcome of a [result].  The
      longest string of the engine bounds the depth the constructor
      accepts ([maxStringLength]); the memory of the engine is not
      modelled, and no statement below says that a large depth is
      accepted: a depth is that of a model at hand, or the constructor
      is supposed to have returned. *)

From Stdlib Require Import String Ascii List ZArith NArith Arith Bool Lia.
From Stdlib Require Import Floats DecimalString DecimalNat DecimalN.
Import ListNotations.

Local Open Scope string_scope.
Local Open Scope list_scope.

Set Implicit Arguments.

(** ** JavaScript values and outcomes *)

Inductive error := TypeError | RangeError.

(** The outcome of a call: a value, an exception, or [Diverge] when a
    loop outlives its fuel (which [generate] is proved never to do). *)
Inductive result (A : Type) :=
| Ok (a : A)
| Throw (e : error)
| Diverge.

Arguments Ok {A} a.
Arguments Throw {A} e.
Arguments Diverge {A}.

(** The values held by index arrays.  [symbolToIndex] yields a number,
    [undefined], or a value inherited from [Object.prototype]; [generate]
    pushes property names on its state window.  An inherited value and a
    property name are used through their string conversion only: both
    are a [Str]. *)
Inductive value :=
| Undefined
| Num (n : nat)
| Str (s : string).

(** An integer count, or the [NaN] that [undefined + 1] evaluates to. *)
Inductive num :=
| Int (z : Z)
| NaN.

Abbreviation key := string (only parsing).

(** Decimal rendering of an index, as [String(n)] gives it. *)
Definition render (n : nat) : string :=
  NilEmpty.string_of_uint (Nat.to_uint n).

(** [ToString] of a value used as a property name: [obj[v]]. *)
Definition toKey (v : value) : key :=
  match v with
  | Undefined => "undefined"
  | Num n => render n
  | Str s => s
  end.

(** The rendering of an element by [Array.prototype.join]: [undefined]
    is the empty string. *)
Definition joinElem (v : value) : string :=
  match v with
  | Undefined => ""
  | Num n => render n
  | Str s => s
  end.

Definition join (sep : string) (xs : list value) : string :=
  String.concat sep (map joinElem xs).

(** [s.split(c)] for a one-character separator. *)
Fixpoint split (c : ascii) (s : string) : list string :=
  match s with
  | EmptyString => [""]
  | String a s' =>
      if Ascii.eqb a c then "" :: split c s'
      else match split c s' with
           | h :: t => String a h :: t
           | [] => [String a ""]
           end
  end.

(** [xs.slice(i, j)] for [0 <= i <= j]. *)
Definition slice {A : Type} (xs : list A) (i j : nat) : list A :=
  firstn (j - i) (skipn i xs).

(** A canonical array index: the decimal rendering of an integer below
    [2^32 - 1]. *)
Definition arrayIndex (s : key) : option N :=
  match NilEmpty.uint_of_string s with
  | Some d =>
      let n := N.of_uint d in
      if String.eqb (NilEmpty.string_of_uint (N.to_uint n)) s
         && (n <? 4294967295)%N
      then Some n else None
  | None => None
  end.

(** [ToNumber] of a property name, restricted to the names the model
    writes: the empty string is 0, a string of decimal digits is its
    value, anything else ("_sum", "undefined", the text of an inherited
    function) is NaN, here [None].  Signs, white space, exponents and
    hexadecimal forms are not modelled. *)
Definition toNumber (s : key) : option N :=
  match NilEmpty.uint_of_string s with
  | Some d => Some (N.of_uint d)
  | None => None
  end.

(** [s != 0], the loose inequality of a property name and zero. *)
Definition neZero (s : key) : bool :=
  match toNumber s with
  | Some n => negb (n =? 0)%N
  | None => true
  end.

(** ** Plain objects *)

Module Obj.

Definition t (V : Type) := list (key * V).

Definition empty {V : Type} : t V := [].

(** [o[k]]; [None] is [undefined]. *)
Fixpoint get {V : Type} (o : t V) (k : key) : option V :=
  match o with
  | [] => None
  | (k', v) :: o' => if String.eqb k' k then Some v else get o' k
  end.

(** [o[k] = v]: an existing property keeps its place, a new one is
    created last. *)
Fixpoint set {V : Type} (o : t V) (k : key) (v : V) : t V :=
  match o with
  | [] => [(k, v)]
  | (k', v') :: o' =>
      if String.eqb k' k then (k', v) :: o' else (k', v') :: set o' k v
  end.

Fixpoint insertIndex (n : N) (k : key) (l : list (N * key))
  : list (N * key) :=
  match l with
  | [] => [(n, k)]
  | (n', k') :: l' =>
      if (n <? n')%N then (n, k) :: l
      else (n', k') :: insertIndex n k l'
  end.

Fixpoint indexKeys {V : Type} (o : t V) : list (N * key) :=
  match o with
  | [] => []
  | (k, _) :: o' =>
      match arrayIndex k with
      | Some n => insertIndex n k (indexKeys o')
      | None => indexKeys o'
      end
  end.

Fixpoint nameKeys {V : Type} (o : t V) : list key :=
  match o with
  | [] => []
  | (k, _) :: o' =>
      match arrayIndex k with
      | Some _ => nameKeys o'
      | None => k :: nameKeys o'
      end
  end.

(** The keys in the order [for (k in o)] visits them. *)
Definition ownKeys {V : Type} (o : t V) : list key :=
  map snd (indexKeys o) ++ nameKeys o.

End Obj.

(** The properties a plain object inherits from [Object.prototype],
    each with the string its value converts to (the text of a native
    function as V8 prints it; [__proto__] reads the prototype object
    itself). *)
Definition objectPrototype : Obj.t string :=
  [("constructor", "function Object() { [native code] }");
   ("__defineGetter__", "function __defineGetter__() { [native code] }");
   ("__defineSetter__", "function __defineSetter__() { [native code] }");
   ("hasOwnProperty", "function hasOwnProperty() { [native code] }");
   ("__lookupGetter__", "function __lookupGetter__() { [native code] }");
   ("__lookupSetter__", "function __lookupSetter__() { [native code] }");
   ("isPrototypeOf", "function isPrototypeOf() { [native code] }");
   ("propertyIsEnumerable",
    "function propertyIsEnumerable() { [native code] }");
   ("toString", "function toString() { [native code] }");
   ("valueOf", "function valueOf() { [native code] }");
   ("__proto__", "[object Object]");
   ("toLocaleString", "function toLocaleString() { [native code] }")].

(** [symbolMap[x]]: the own property, else the inherited one, else
    [undefined]. *)
Definition lookupSymbol (symbolMap : Obj.t nat) (x : string) : value :=
  match Obj.get symbolMap x with
  | Some n => Num n
  | None =>
      match Obj.get objectPrototype x with
      | Some s => Str s
      | None => Undefined
      end
  end.

(** The longest string of the engine (V8 on a 64-bit platform). *)
Definition maxStringLength : Z := 536870888.

(** [xs.join(sep)] where the engine checks the length of the result. *)
Definition joinChecked (sep : string) (xs : list value) : result string :=
  let s := join sep xs in
  if (maxStringLength <? Z.of_nat (String.length s))%Z
  then Throw RangeError
  else Ok s.

(** ** The model object *)

Record Model := mkModel {
  depth : nat;
  counts : Obj.t (Obj.t num);
  symbols : list string;
  separator : string;
  symbolMap : Obj.t nat;
  prePadding : list string;
  postPadding : list string;
  probabilities : option (Obj.t (list (float * key)));
  _score : option float;
  _scoreFactor : option nat
}.

(** [Array(len)]: an array of [len] holes, or a RangeError when [len] is
    not an array length. *)
Definition Array_ (len : Z) : result (list value) :=
  if ((0 <=? len) && (len <? 4294967296))%Z
  then Ok (repeat Undefined (Z.to_nat len))
  else Throw RangeError.

(** [new Markov(depth)]; [None] is an omitted argument. *)
Definition Markov (depth : option Z) : result Model :=
  let depth := match depth with
               | Some d => if (d =? 0)%Z then 1%Z else d
               | None => 1%Z
               end in
  match Array_ depth with
  | Ok holes =>
      match joinChecked "," holes with
      | Ok commas =>
          Ok {| depth := Z.to_nat depth;
                counts := Obj.empty;
                symbols := [""];
                separator := ",";
                symbolMap := [("", 0)];
                prePadding := split "," commas;
                postPadding := [""];
                probabilities := None;
                _score := None;
                _scoreFactor := None |}
      | Throw e => Throw e
      | Diverge => Diverge
      end
  | Throw e => Throw e
  | Diverge => Diverge
  end.

(** ** The state monad of methods called on [this] *)

Definition M (A : Type) := Model -> A * Model.

Definition ret {A : Type} (a : A) : M A := fun m => (a, m).

Definition bind {A B : Type} (c : M A) (f : A -> M B) : M B :=
  fun m => let r := c m in f (fst r) (snd r).

Notation "x <- c ;; k" := (bind c (fun x => k))
  (at level 61, c at next level, right associativity).

(** The source's [map]: [f] is called on each element in order. *)
Fixpoint map_ {A B : Type} (f : A -> M B) (xs : list A) : M (list B) :=
  match xs with
  | [] => ret []
  | x :: xs' => r <- f x ;; rs <- map_ f xs' ;; ret (r :: rs)
  end.

Definition padInput (xs : list string) : M (list string) :=
  fun m => (prePadding m ++ xs ++ postPadding m, m).

Definition symbolToIndex (x : string) : M value :=
  fun m => (lookupSymbol (symbolMap m) x, m).

(** [null == this.symbolMap[x]] holds of [undefined] only. *)
Definition addSymbol (x : string) : M string :=
  fun m =>
    match lookupSymbol (symbolMap m) x with
    | Undefined =>
        (x, {| depth := depth m;
               counts := counts m;
               symbols := symbols m ++ [x];
               separator := separator m;
               symbolMap := Obj.set (symbolMap m) x (length (symbols m));
               prePadding := prePadding m;
               postPadding := postPadding m;
               probabilities := probabilities m;
               _score := _score m;
               _scoreFactor := _scoreFactor m |})
    | _ => (x, m)
    end.

(** [(c || 0) + 1] on a count that may be missing. *)
Definition incrOrZero (c : option num) : num :=
  match c with
  | Some (Int z) => Int (z + 1)
  | Some NaN => Int 1
  | None => Int 1
  end.

(** [c += 1]. *)
Definition incr (c : option num) : num :=
  match c with
  | Some (Int z) => Int (z + 1)
  | Some NaN => NaN
  | None => NaN
  end.

Definition set_counts (c : Obj.t (Obj.t num)) (m : Model) : Model :=
  {| depth := depth m;
     counts := c;
     symbols := symbols m;
     separator := separator m;
     symbolMap := symbolMap m;
     prePadding := prePadding m;
     postPadding := postPadding m;
     probabilities := probabilities m;
     _score := _score m;
     _scoreFactor := _scoreFactor m |}.

Definition countEntry (o : Obj.t num) (symbol : key) : Obj.t num :=
  let o1 := Obj.set o symbol (incrOrZero (Obj.get o symbol)) in
  Obj.set o1 "_sum" (incr (Obj.get o1 "_sum")).

Definition countPair (pair : key * value) : M (key * value) :=
  fun m =>
    let prefix := fst pair in
    let symbol := snd pair in
    let o := match Obj.get (counts m) prefix with
             | Some o => o
             | None => [("_sum", Int 0)]
             end in
    (pair, set_counts (Obj.set (counts m) prefix (countEntry o (toKey symbol))) m).

Definition prefix (xs : list value) (i : nat) : M key :=
  fun m => (join (separator m) (slice xs i (i + depth m)), m).

(** The body of [forEachPrefixPair]'s loop, run for the [n] remaining
    indexes from [i]. *)
Fixpoint forEachFrom {X : Type} (f : key * value -> M X)
  (xs : list value) (n i : nat) : M unit :=
  match n with
  | O => ret tt
  | S n' =>
      p <- prefix xs i ;;
      d <- (fun m => (depth m, m)) ;;
      _ <- f (p, nth (i + d) xs Undefined) ;;
      forEachFrom f xs n' (S i)
  end.

Definition forEachPrefixPair {X : Type} (f : key * value -> M X)
  (xs : list value) : M (list value) :=
  l <- (fun m => (length xs - depth m, m)) ;;
  _ <- forEachFrom f xs l 0 ;;
  ret xs.

Definition set_probabilities
  (p : option (Obj.t (list (float * key)))) (m : Model) : Model :=
  {| depth := depth m;
     counts := counts m;
     symbols := symbols m;
     separator := separator m;
     symbolMap := symbolMap m;
     prePadding := prePadding m;
     postPadding := postPadding m;
     probabilities := p;
     _score := _score m;
     _scoreFactor := _scoreFactor m |}.

Definition resetProbabilities : M unit :=
  fun m => (tt, set_probabilities None m).

(** [Markov.prototype.train]: the composition of the five steps. *)
Definition train (xs : list string) : M unit :=
  xs1 <- map_ addSymbol xs ;;
  xs2 <- padInput xs1 ;;
  xs3 <- map_ symbolToIndex xs2 ;;
  _ <- forEachPrefixPair countPair xs3 ;;
  resetProbabilities.

Definition trained (xs : list string) (m : Model) : Model :=
  snd (train xs m).

(** ** Numbers *)

(** The double nearest to an integer: the Number an integer count is
    (exact below 2^53). *)
Definition Z2float (z : Z) : float :=
  SF2Prim (SpecFloat.binary_normalize prec emax z 0 false).

(** [ToNumber] of a count read from an object; [undefined] is NaN. *)
Definition toFloat (c : option num) : float :=
  match c with
  | Some (Int z) => Z2float z
  | Some NaN => nan
  | None => nan
  end.

(** Truthiness of a count read from an object. *)
Definition truthy (c : option num) : bool :=
  match c with
  | Some (Int z) => negb (z =? 0)%Z
  | Some NaN => false
  | None => false
  end.

(** ** The Probability Index *)

(** The inner loop of [updateProbabilities] over the keys [sfxs] of the
    chain entry [o], from the running sum [upper]. *)
Fixpoint cumulate (o : Obj.t num) (sfxs : list key) (upper : float)
  : list (float * key) :=
  match sfxs with
  | [] => []
  | sfx :: rest =>
      let upper' :=
        (upper + toFloat (Obj.get o sfx) / toFloat (Obj.get o "_sum"))%float in
      (upper', sfx) :: cumulate o rest upper'
  end.

Definition probsOf (o : Obj.t num) : list (float * key) :=
  cumulate o (Obj.ownKeys o) 0%float.

Definition rebuild (c : Obj.t (Obj.t num)) : Obj.t (list (float * key)) :=
  fold_left
    (fun P pfx =>
       match Obj.get c pfx with
       | Some o => Obj.set P pfx (probsOf o)
       | None => P
       end)
    (Obj.ownKeys c) Obj.empty.

Definition updateProbabilities : M unit :=
  fun m => (tt, set_probabilities (Some (rebuild (counts m))) m).

(** The scan of [genSuffix] down one cumulative list with the draw
    [r]; running off the end reads [undefined[1]]. *)
Fixpoint scan (r : float) (probs : list (float * key)) : result key :=
  match probs with
  | [] => Throw TypeError
  | (upper, sfx) :: rest =>
      if (upper <? r)%float then scan r rest else Ok sfx
  end.

(** [genSuffix(pfx)] with the value [r] drawn by [Math.random()]. *)
Definition genSuffix (pfx : key) (r : float) (m : Model) : result key :=
  match probabilities m with
  | None => Throw TypeError
  | Some P =>
      match Obj.get P pfx with
      | None => Throw TypeError
      | Some probs => scan r probs
      end
  end.

(** [this.symbols[sfx]] for a property name [sfx]; [None] is
    [undefined]. *)
Definition symbolAt (m : Model) (sfx : key) : option string :=
  match arrayIndex sfx with
  | Some n => nth_error (symbols m) (N.to_nat n)
  | None => None
  end.

Section Generate.

Variable rand : nat -> float.

(** The [while] loop of [generate], up to its exit: the result is the
    value of the locals [string] and [zCount] there.  [k] counts the
    draws made so far. *)
Fixpoint generateLoop (fuel : nat) (m : Model) (minLength maxLength : Z)
  (string : list (option string)) (pfx : list value) (sfx : key)
  (zCount : Z) (k : nat) : result (list (option String.string) * Z) :=
  match fuel with
  | O => Diverge
  | S fuel' =>
      let len := Z.of_nat (length string) in
      if ((len <? maxLength)%Z && neZero sfx) || (len <? minLength)%Z then
        if neZero sfx then
          let string' := string ++ [symbolAt m sfx] in
          let pfx' := tl (pfx ++ [Str sfx]) in
          match genSuffix (join (separator m) pfx') (rand k) m with
          | Ok sfx' =>
              generateLoop fuel' m minLength maxLength string' pfx' sfx'
                zCount (S k)
          | Throw e => Throw e
          | Diverge => Diverge
          end
        else
          let zCount' := (zCount + 1)%Z in
          if (15 <? zCount')%Z then Ok (string, zCount')
          else
            match genSuffix (join (separator m) pfx) (rand k) m with
            | Ok sfx' =>
                generateLoop fuel' m minLength maxLength string pfx sfx'
                  zCount' (S k)
            | Throw e => Throw e
            | Diverge => Diverge
            end
      else Ok (string, zCount)
  end.

(** A bound on the iterations of the loop: every iteration pushes a
    symbol or consumes one of the sixteen boundary draws. *)
Definition generateFuel (minLength maxLength : Z) : nat :=
  Z.to_nat (Z.max minLength maxLength) + 17.

(** [maxLength || minLength]; [None] is an omitted [maxLength]. *)
Definition maxLengthOr (minLength : Z) (maxLength : option Z) : Z :=
  match maxLength with
  | Some n => if (n =? 0)%Z then minLength else n
  | None => minLength
  end.

(** The model [generate] samples from: the Probability Index is
    rebuilt when it is absent. *)
Definition refreshed (m : Model) : Model :=
  match probabilities m with
  | None => snd (updateProbabilities m)
  | Some _ => m
  end.

(** [generate] up to its [return]: the locals [string] and [zCount]
    at the exit of the loop. *)
Definition generateExit (minLength : Z) (maxLength : option Z) (m : Model)
  : result (list (option string) * Z) :=
  let m1 := refreshed m in
  let maxLength := maxLengthOr minLength maxLength in
  let pfx := fst (map_ symbolToIndex (prePadding m1) m1) in
  match genSuffix (join (separator m1) pfx) (rand 0) m1 with
  | Ok sfx =>
      generateLoop (generateFuel minLength maxLength) m1
        minLength maxLength [] pfx sfx 0 1
  | Throw e => Throw e
  | Diverge => Diverge
  end.

(** [Markov.prototype.generate]: it returns [string]. *)
Definition generate (minLength : Z) (maxLength : option Z)
  : M (result (list (option string))) :=
  fun m =>
    (match generateExit minLength maxLength m with
     | Ok (string, _) => Ok string
     | Throw e => Throw e
     | Diverge => Diverge
     end, refreshed m).

End Generate.

(** ** Scoring *)

Definition set_score (s : option float) (f : option nat) (m : Model)
  : Model :=
  {| depth := depth m;
     counts := counts m;
     symbols := symbols m;
     separator := separator m;
     symbolMap := symbolMap m;
     prePadding := prePadding m;
     postPadding := postPadding m;
     probabilities := probabilities m;
     _score := s;
     _scoreFactor := f |}.

Definition optFloat (s : option float) : float :=
  match s with
  | Some x => x
  | None => nan
  end.

Definition scoreInit (symbols : list string) : M (list string) :=
  fun m => (symbols, set_score (Some 0%float) (Some (length symbols)) m).

Definition scorePair (pair : key * value) : M unit :=
  fun m =>
    let pfx := fst pair in
    let sfx := toKey (snd pair) in
    match Obj.get (counts m) pfx with
    | Some o =>
        if truthy (Obj.get o sfx) then
          (tt, set_score
                 (Some (optFloat (_score m)
                        + toFloat (Obj.get o sfx) / toFloat (Obj.get o "_sum"))%float)
                 (_scoreFactor m) m)
        else (tt, m)
    | None => (tt, m)
    end.

Definition scoreFinal : M float :=
  fun m =>
    ((optFloat (_score m)
      / match _scoreFactor m with
        | Some n => Z2float (Z.of_nat n)
        | None => nan
        end)%float, m).

(** [Markov.prototype.score]. *)
Definition score (symbols : list string) : M float :=
  xs1 <- scoreInit symbols ;;
  xs2 <- padInput xs1 ;;
  xs3 <- map_ symbolToIndex xs2 ;;
  _ <- forEachPrefixPair scorePair xs3 ;;
  scoreFinal.

(** ** Snapshots *)

(** The object [toJSON] returns, for a model whose symbols are
    strings.  [JSON.stringify] followed by [JSON.parse] copies such an
    object (an integer, strings, and plain objects of integers) with the
    same properties, enumerated in the same order; the copy is modelled
    as the object itself, and the JSON text is not modelled.  Symbols
    that are not strings are not always copied as they are: see
    [RawSnapshot]. *)
Record Snapshot := mkSnapshot {
  json_depth : Z;
  json_symbols : list string;
  json_counts : Obj.t (Obj.t num)
}.

Definition toJSON (m : Model) : Snapshot :=
  {| json_depth := Z.of_nat (depth m);
     json_symbols := symbols m;
     json_counts := counts m |}.

(** [Markov.fromJSON] on the parsed snapshot [obj]. *)
Definition fromJSON (obj : Snapshot) : result Model :=
  match Markov (Some (json_depth obj)) with
  | Ok M0 =>
      let M1 := snd (map_ addSymbol (json_symbols obj) M0) in
      Ok (set_counts (json_counts obj) M1)
  | Throw e => Throw e
  | Diverge => Diverge
  end.

(** ** Reachable models *)

Inductive reachable : Model -> Prop :=
| reach_new d m :
    Markov d = Ok m -> reachable m
| reach_train xs m :
    reachable m -> reachable (snd (train xs m))
| reach_generate rand minLength maxLength m :
    reachable m -> reachable (snd (generate rand minLength maxLength m))
| reach_score xs m :
    reachable m -> reachable (snd (score xs m))
| reach_json m m' :
    reachable m -> fromJSON (toJSON m) = Ok m' -> reachable m'.

(** ** Vocabulary of the statements *)

(** The model [new Markov(d)] builds for a depth [d] it accepts. *)
Definition untrained (d : nat) : Model :=
  {| depth := d;
     counts := Obj.empty;
     symbols := [""];
     separator := ",";
     symbolMap := [("", 0)];
     prePadding := repeat "" d;
     postPadding := [""];
     probabilities := None;
     _score := None;
     _scoreFactor := None |}.

(** The symbol map that interning the symbols [syms] in order builds,
    the first of them getting index [i]. *)
Fixpoint tableFrom (i : nat) (syms : list string) : Obj.t nat :=
  match syms with
  | [] => []
  | s :: rest => (s, i) :: tableFrom (S i) rest
  end.

(** Every reachable model is well formed. *)
Record wf (m : Model) : Prop := mkWf {
  wf_depth : 1 <= depth m /\ (Z.of_nat (depth m) <= maxStringLength + 1)%Z;
  wf_separator : separator m = ",";
  wf_prePadding : prePadding m = repeat "" (depth m);
  wf_postPadding : postPadding m = [""];
  wf_boundary : exists rest, symbols m = "" :: rest;
  wf_symbolMap : symbolMap m = tableFrom 0 (symbols m);
  wf_distinct : NoDup (symbols m);
  wf_own : Forall (fun s => Obj.get objectPrototype s = None) (symbols m);
  wf_totals : forall p o, Obj.get (counts m) p = Some o ->
                exists z, Obj.get o "_sum" = Some (Int z);
  wf_index : probabilities m = None
             \/ probabilities m = Some (rebuild (counts m))
}.

(** The models that differ at most in the scratch fields of [score]. *)
Definition frame (m m' : Model) : Prop :=
  depth m' = depth m /\
  counts m' = counts m /\
  symbols m' = symbols m /\
  separator m' = separator m /\
  symbolMap m' = symbolMap m /\
  prePadding m' = prePadding m /\
  postPadding m' = postPadding m /\
  probabilities m' = probabilities m.

(** The (prefix key, suffix) pairs [forEachPrefixPair] visits on the
    index sequence [xs], for a depth [d] and a separator [sep]: the
    window contributions of the sequence. *)
Fixpoint pairsFrom (d : nat) (sep : string) (xs : list value) (n i : nat)
  : list (key * value) :=
  match n with
  | O => []
  | S n' =>
      (join sep (slice xs i (i + d)), nth (i + d) xs Undefined)
        :: pairsFrom d sep xs n' (S i)
  end.

Definition indexesOf (m : Model) (xs : list string) : list value :=
  map (lookupSymbol (symbolMap m)) xs.

Definition contributions (m : Model) (xs : list string) : list (key * value) :=
  let idx := indexesOf m (prePadding m ++ xs ++ postPadding m) in
  pairsFrom (depth m) (separator m) idx (length idx - depth m) 0.

(** The number recorded in the Chain Counter [c] for the prefix [p]
    under the property [k]; a missing entry counts for 0. *)
Definition countOf (c : Obj.t (Obj.t num)) (p k : key) : Z :=
  match Obj.get c p with
  | Some o => match Obj.get o k with
              | Some (Int z) => z
              | _ => 0%Z
              end
  | None => 0%Z
  end.

(** How many of the pairs have prefix [p] and suffix property [s]. *)
Definition occ (p s : key) (pairs : list (key * value)) : Z :=
  Z.of_nat (length (filter (fun pr => String.eqb (fst pr) p
                                      && String.eqb (toKey (snd pr)) s) pairs)).

(** How many of the pairs have prefix [p]. *)
Definition total (p : key) (pairs : list (key * value)) : Z :=
  Z.of_nat (length (filter (fun pr => String.eqb (fst pr) p) pairs)).

(** The Probability Index [generate] samples from: the cached one, or
    the one it rebuilds. *)
Definition indexOf (m : Model) : Obj.t (list (float * key)) :=
  match probabilities m with
  | Some P => P
  | None => rebuild (counts m)
  end.

(** The key of the state [generate] starts from. *)
Definition startKey (m : Model) : key :=
  join (separator m) (indexesOf m (prePadding m)).

(** The model after the symbols [xs] were interned. *)
Definition interned (xs : list string) (m : Model) : Model :=
  snd (map_ addSymbol xs m).

(** The Chain Counter after one more pair was counted. *)
Definition countStep (c : Obj.t (Obj.t num)) (pr : key * value)
  : Obj.t (Obj.t num) :=
  Obj.set c (fst pr)
    (countEntry (match Obj.get c (fst pr) with
                 | Some o => o
                 | None => [("_sum", Int 0)]
                 end) (toKey (snd pr))).

(** The likelihood accumulated by [score] over the pairs, from [acc]. *)
Definition scoreSum (c : Obj.t (Obj.t num)) (pairs : list (key * value))
  (acc : float) : float :=
  fold_left
    (fun acc pr =>
       match Obj.get c (fst pr) with
       | Some o =>
           if truthy (Obj.get o (toKey (snd pr)))
           then (acc + toFloat (Obj.get o (toKey (snd pr)))
                       / toFloat (Obj.get o "_sum"))%float
           else acc
       | None => acc
       end)
    pairs acc.

(** The models that agree on everything [train] and [score] read:
    all fields but the Probability Index and the scratch fields. *)
Definition sameCore (m m' : Model) : Prop :=
  depth m' = depth m /\
  counts m' = counts m /\
  symbols m' = symbols m /\
  separator m' = separator m /\
  symbolMap m' = symbolMap m /\
  prePadding m' = prePadding m /\
  postPadding m' = postPadding m.


(** The strings the values inherited from [Object.prototype] convert
    to. *)
Definition inheritedString (s : string) : bool :=
  existsb (fun e => String.eqb (snd e) s) objectPrototype.

(** The values [symbolToIndex] yields: an index, [undefined] or an
    inherited value. *)
Definition isLookup (v : value) : Prop :=
  match v with
  | Str s => inheritedString s = true
  | _ => True
  end.

(** The values [symbolToIndex] yields for the symbols of a sequence
    that was trained: an index or an inherited value. *)
Definition isBound (v : value) : Prop :=
  match v with
  | Undefined => False
  | Num _ => True
  | Str s => inheritedString s = true
  end.

(** The symbols that [Object.prototype] does not name: those
    [addSymbol] can intern. *)
Definition ownName (x : string) : bool :=
  match Obj.get objectPrototype x with
  | Some _ => false
  | None => true
  end.

(** The symbols of [xs] that are not among [seen], each once, in the
    order of their first occurrence. *)
Fixpoint newSymbols (seen xs : list string) : list string :=
  match xs with
  | [] => []
  | x :: rest =>
      if existsb (String.eqb x) seen then newSymbols seen rest
      else x :: newSymbols (seen ++ [x]) rest
  end.

(** The sum of the suffix counts of a chain entry: of all its
    properties but the total ["_sum"]. *)
Fixpoint suffixSum (o : Obj.t num) : Z :=
  match o with
  | [] => 0%Z
  | (k, v) :: rest =>
      ((if String.eqb k "_sum" then 0
        else match v with Int z => z | NaN => 0 end)
       + suffixSum rest)%Z
  end.

(** A sound chain entry: property names occur once, every number is
    an integer, at least 1, and the total is the sum of the suffix
    counts. *)
Definition entrySound (o : Obj.t num) : Prop :=
  NoDup (map fst o) /\
  (forall k v, In (k, v) o -> exists z, v = Int z /\ (1 <= z)%Z) /\
  Obj.get o "_sum" = Some (Int (suffixSum o)).

Definition countsSound (c : Obj.t (Obj.t num)) : Prop :=
  forall p o, Obj.get c p = Some o -> entrySound o.

(** A string without the separator of prefix keys. *)
Fixpoint noComma (s : string) : Prop :=
  match s with
  | EmptyString => True
  | String a s' => a <> ","%char /\ noComma s'
  end.

(** The Chain Counter [c] holds the pair of the prefix [p] and the
    suffix property [s]. *)
Definition recorded (c : Obj.t (Obj.t num)) (p s : key) : Prop :=
  exists o, Obj.get c p = Some o /\ Obj.get o s <> None.

(** Every suffix property of the Chain Counter is the total or the
    name of an index or of an inherited value. *)
Definition suffixesShaped (c : Obj.t (Obj.t num)) : Prop :=
  forall p s, recorded c p s ->
    s = "_sum" \/ exists v, isBound v /\ s = toKey v.

(** The Chain Counter is closed under succession: when the window
    [ts] of [d] names was seen before a suffix [t] other than the
    boundary index, the window shifted onto [t] is a prefix too. *)
Definition successorClosed (d : nat) (c : Obj.t (Obj.t num)) : Prop :=
  forall (ts : list string) (t : string),
    length ts = d -> Forall noComma ts ->
    neZero t = true -> t <> "_sum" ->
    recorded c (String.concat "," ts) t ->
    Obj.get c (String.concat "," (tl (ts ++ [t]))) <> None.

(** The draw [r] selects a genuine suffix in the cumulative list
    [probs]: it neither runs off the list nor stops at the pair of the
    total ["_sum"]. *)
Definition drawsGenuine (r : float) (probs : list (float * key)) : bool :=
  match scan r probs with
  | Ok s => negb (String.eqb s "_sum")
  | _ => false
  end.

(** Every prefix key of the Chain Counter is the key of a window of
    [d] indexes or inherited values. *)
Definition prefixesShaped (d : nat) (c : Obj.t (Obj.t num)) : Prop :=
  forall p, Obj.get c p <> None ->
    exists vs, length vs = d /\ Forall isBound vs /\ p = join "," vs.

(** ** Raw symbols *)

(** The source takes any value for a symbol.  [train] and [score] use
    it as a property name of [symbolMap], that is through its string
    conversion; [addSymbol] stores the value itself in [symbols]; and
    [toJSON] hands the stored values to [JSON.stringify].  The values
    treated here are the strings and the primitive values [null],
    [undefined], NaN and plus or minus Infinity. *)
Inductive symbol :=
| SString (s : string)
| SNull
| SUndefined
| SNaN
| SInfinity (negative : bool).

(** [String(x)]: the property name a symbol is used as. *)
Definition keyOf (x : symbol) : string :=
  match x with
  | SString s => s
  | SNull => "null"
  | SUndefined => "undefined"
  | SNaN => "NaN"
  | SInfinity false => "Infinity"
  | SInfinity true => "-Infinity"
  end.

(** [JSON.parse(JSON.stringify(x))] for an element [x] of an array: a
    string and [null] are written as they are; [undefined], NaN and the
    infinities are written as [null]. *)
Definition jsonCopy (x : symbol) : symbol :=
  match x with
  | SString s => SString s
  | _ => SNull
  end.

(** A model together with the values its [symbols] array holds;
    [strings] is the model over their string conversions. *)
Record RawModel := mkRawModel {
  strings : Model;
  rawSymbols : list symbol
}.

(** [new Markov(d)] for a depth [d] it accepts. *)
Definition newRaw (d : nat) : RawModel :=
  {| strings := untrained d; rawSymbols := [SString ""] |}.

(** [addSymbol(x)]: the test reads [symbolMap] at the string of [x];
    the value pushed is [x] itself. *)
Definition addSymbolRaw (x : symbol) (rm : RawModel) : RawModel :=
  {| strings := snd (addSymbol (keyOf x) (strings rm));
     rawSymbols :=
       match lookupSymbol (symbolMap (strings rm)) (keyOf x) with
       | Undefined => rawSymbols rm ++ [x]
       | _ => rawSymbols rm
       end |}.

Definition internRaw (xs : list symbol) (rm : RawModel) : RawModel :=
  fold_left (fun rm x => addSymbolRaw x rm) xs rm.

(** [train] and [score] on raw symbols: beyond [addSymbol], they use
    the symbols through their strings. *)
Definition trainRaw (xs : list symbol) (rm : RawModel) : RawModel :=
  {| strings := trained (map keyOf xs) (strings rm);
     rawSymbols := rawSymbols (internRaw xs rm) |}.

Definition scoreRaw (xs : list symbol) (rm : RawModel) : float :=
  fst (score (map keyOf xs) (strings rm)).

(** The snapshot of a model as [JSON.parse] reads it back from the
    text [JSON.stringify] wrote. *)
Record RawSnapshot := mkRawSnapshot {
  raw_depth : Z;
  raw_symbols : list symbol;
  raw_counts : Obj.t (Obj.t num)
}.

Definition toJSONRaw (rm : RawModel) : RawSnapshot :=
  {| raw_depth := Z.of_nat (depth (strings rm));
     raw_symbols := map jsonCopy (rawSymbols rm);
     raw_counts := counts (strings rm) |}.

Definition fromJSONRaw (obj : RawSnapshot) : result RawModel :=
  match Markov (Some (raw_depth obj)) with
  | Ok M0 =>
      let rm := internRaw (raw_symbols obj)
                  {| strings := M0; rawSymbols := [SString ""] |} in
      Ok {| strings := set_counts (raw_counts obj) (strings rm);
            rawSymbols := rawSymbols rm |}
  | Throw e => Throw e
  | Diverge => Diverge
  end.

(** ** Plain objects: reading after writing *)

Module ObjFacts.

Lemma get_set_same {V : Type} (o : Obj.t V) k v :
  Obj.get (Obj.set o k v) k = Some v.
Proof.
  induction o as [|[k' v'] o IH]; simpl.
  - now rewrite String.eqb_refl.
  - destruct (String.eqb k' k) eqn:E; simpl; rewrite E; auto.
Qed.

Lemma get_set_other {V : Type} (o : Obj.t V) k k' v :
  k <> k' -> Obj.get (Obj.set o k v) k' = Obj.get o k'.
Proof.
  intros Hne. induction o as [|[k0 v0] o IH]; simpl.
  - destruct (String.eqb k k') eqn:E; auto.
    apply String.eqb_eq in E. contradiction.
  - destruct (String.eqb k0 k) eqn:E; simpl.
    + apply String.eqb_eq in E. subst k0.
      destruct (String.eqb k k') eqn:E'; auto.
      apply String.eqb_eq in E'. contradiction.
    + now rewrite IH.
Qed.

Lemma get_set {V : Type} (o : Obj.t V) k k' v :
  Obj.get (Obj.set o k v) k' =
  if String.eqb k k' then Some v else Obj.get o k'.
Proof.
  destruct (String.eqb k k') eqn:E.
  - apply String.eqb_eq in E. subst. apply get_set_same.
  - apply String.eqb_neq in E. now apply get_set_other.
Qed.

End ObjFacts.

(** ** The constructor *)

Lemma join_holes n :
  join "," (repeat Undefined (S n)) =
  String.concat "" (repeat "," n).
Proof.
  unfold join. induction n as [|n IH]; [reflexivity|].
  change (repeat Undefined (S (S n))) with (Undefined :: repeat Undefined (S n)).
  change (repeat "," (S n)) with ("," :: repeat "," n).
  cbn [map String.concat joinElem] in *.
  destruct (map joinElem (repeat Undefined n)) eqn:E.
  - destruct n; [reflexivity | discriminate].
  - cbn [map] in IH. rewrite IH. destruct n; reflexivity.
Qed.

Lemma split_commas n :
  split "," (String.concat "" (repeat "," n)) = repeat "" (S n).
Proof.
  induction n as [|n IH]; [reflexivity|].
  replace (String.concat "" (repeat "," (S n)))
    with (String "," (String.concat "" (repeat "," n)))
    by (destruct n; reflexivity).
  cbn [split]. change (Ascii.eqb "," ",") with true. cbn iota.
  rewrite IH. reflexivity.
Qed.

(** The padding the constructor computes with [join] and [split] is
    [depth] empty strings. *)
Lemma prePadding_holes n :
  split "," (join "," (repeat Undefined (S n))) = repeat "" (S n).
Proof. rewrite join_holes. apply split_commas. Qed.

Lemma length_commas n :
  String.length (String.concat "" (repeat "," n)) = n.
Proof.
  induction n as [|n IH]; [reflexivity|].
  replace (String.concat "" (repeat "," (S n)))
    with (String "," (String.concat "" (repeat "," n)))
    by (destruct n; reflexivity).
  cbn [String.length]. now rewrite IH.
Qed.

Lemma maxStringLength_bound : (0 < maxStringLength + 1 < 4294967296)%Z.
Proof. unfold maxStringLength. lia. Qed.

(** The string of commas of a depth [S n] is [n] characters long: it
    is built when [n] does not exceed the longest string. *)
Lemma joinChecked_holes n :
  joinChecked "," (repeat Undefined (S n)) =
  if (maxStringLength <? Z.of_nat n)%Z then Throw RangeError
  else Ok (join "," (repeat Undefined (S n))).
Proof.
  unfold joinChecked. cbv zeta. rewrite join_holes at 1.
  now rewrite length_commas.
Qed.

Lemma Markov_accepts (d : Z) :
  (0 < d <= maxStringLength + 1)%Z ->
  Markov (Some d) = Ok (untrained (Z.to_nat d)).
Proof.
  intros Hd. pose proof maxStringLength_bound as Hb. unfold Markov, Array_.
  destruct (Z.eqb_spec d 0) as [->|_]; [lia|].
  destruct (Z.leb_spec 0 d); [|lia].
  destruct (Z.ltb_spec d 4294967296); [|lia].
  cbn [andb].
  destruct (Z.to_nat d) as [|n] eqn:E; [lia|].
  rewrite joinChecked_holes.
  destruct (Z.ltb_spec maxStringLength (Z.of_nat n)); [lia|].
  unfold untrained. f_equal. f_equal.
  apply prePadding_holes.
Qed.

(** A depth whose string of commas exceeds the longest string is
    rejected by [join]. *)
Lemma Markov_string_limit (d : Z) :
  (maxStringLength + 1 < d < 4294967296)%Z ->
  Markov (Some d) = Throw RangeError.
Proof.
  intros Hd. pose proof maxStringLength_bound as Hb. unfold Markov, Array_.
  destruct (Z.eqb_spec d 0) as [->|_]; [lia|].
  destruct (Z.leb_spec 0 d); [|lia].
  destruct (Z.ltb_spec d 4294967296); [|lia].
  cbn [andb].
  destruct (Z.to_nat d) as [|n] eqn:E; [lia|].
  rewrite joinChecked_holes.
  destruct (Z.ltb_spec maxStringLength (Z.of_nat n)); [reflexivity | lia].
Qed.

(** The depths the constructor accepts. *)
Lemma Markov_Ok d m :
  Markov d = Ok m ->
  exists z, (0 < z <= maxStringLength + 1)%Z /\ m = untrained (Z.to_nat z)
            /\ match d with
               | Some d => (0 <= d)%Z /\ (d <> 0%Z -> z = d)
                          /\ (d = 0%Z -> z = 1%Z)
               | None => z = 1%Z
               end.
Proof.
  intros H. pose proof maxStringLength_bound as Hb.
  assert (Hgen : forall z, (z <> 0)%Z ->
            match Array_ z with
            | Ok holes =>
                match joinChecked "," holes with
                | Ok commas =>
                    Ok {| depth := Z.to_nat z;
                          counts := Obj.empty;
                          symbols := [""];
                          separator := ",";
                          symbolMap := [("", 0)];
                          prePadding := split "," commas;
                          postPadding := [""];
                          probabilities := None;
                          _score := None;
                          _scoreFactor := None |}
                | Throw e => Throw e
                | Diverge => Diverge
                end
            | Throw e => Throw e
            | Diverge => Diverge
            end = Ok m ->
            (0 < z <= maxStringLength + 1)%Z /\ m = untrained (Z.to_nat z)).
  { intros z Hz. unfold Array_.
    destruct (Z.leb_spec 0 z); [|discriminate].
    destruct (Z.ltb_spec z 4294967296); [|discriminate].
    cbn [andb].
    destruct (Z.to_nat z) as [|n] eqn:E; [lia|].
    rewrite joinChecked_holes.
    destruct (Z.ltb_spec maxStringLength (Z.of_nat n)); [discriminate|].
    intros [= <-]. split; [lia|].
    unfold untrained. f_equal. apply prePadding_holes. }
  unfold Markov in H. destruct d as [d|].
  - destruct (Z.eqb_spec d 0) as [->|Hne].
    + apply Hgen in H; [|lia]. exists 1%Z. repeat split; try lia; tauto.
    + apply Hgen in H; [|exact Hne]. exists d. repeat split; try lia; tauto.
  - apply Hgen in H; [|lia]. exists 1%Z. repeat split; try lia; tauto.
Qed.

(** ** Running the methods *)

Lemma bind_run {A B : Type} (c : M A) (f : A -> M B) m :
  bind c f m = f (fst (c m)) (snd (c m)).
Proof. reflexivity. Qed.

Lemma map_symbolToIndex xs m :
  map_ symbolToIndex xs m = (indexesOf m xs, m).
Proof.
  induction xs as [|x xs IH]; [reflexivity|].
  cbn [map_ indexesOf map]. rewrite !bind_run.
  change (snd (symbolToIndex x m)) with m. rewrite IH. reflexivity.
Qed.

(** The three outcomes of reading [symbolMap[x]]. *)
Lemma lookupSymbol_cases sm x :
  (exists n, Obj.get sm x = Some n /\ lookupSymbol sm x = Num n) \/
  (exists s, Obj.get sm x = None /\ Obj.get objectPrototype x = Some s
             /\ lookupSymbol sm x = Str s) \/
  (Obj.get sm x = None /\ Obj.get objectPrototype x = None
   /\ lookupSymbol sm x = Undefined).
Proof.
  unfold lookupSymbol. destruct (Obj.get sm x) as [n|]; [left; eauto|].
  right. destruct (Obj.get objectPrototype x) as [s|]; [left; eauto|].
  right. auto.
Qed.

Lemma lookupSymbol_Undefined sm x :
  lookupSymbol sm x = Undefined <->
  Obj.get sm x = None /\ Obj.get objectPrototype x = None.
Proof.
  destruct (lookupSymbol_cases sm x)
    as [(n & H1 & H2) | [(s & H1 & H2 & H3) | (H1 & H2 & H3)]];
    split; intros H; try tauto; try congruence;
    destruct H; congruence.
Qed.


(** [addSymbol] interns [x] when [symbolMap[x]] is [undefined], and
    does nothing otherwise. *)
Lemma addSymbol_cases x m :
  (lookupSymbol (symbolMap m) x = Undefined /\
   addSymbol x m =
   (x, {| depth := depth m;
          counts := counts m;
          symbols := symbols m ++ [x];
          separator := separator m;
          symbolMap := Obj.set (symbolMap m) x (length (symbols m));
          prePadding := prePadding m;
          postPadding := postPadding m;
          probabilities := probabilities m;
          _score := _score m;
          _scoreFactor := _scoreFactor m |})) \/
  (lookupSymbol (symbolMap m) x <> Undefined /\ addSymbol x m = (x, m)).
Proof.
  unfold addSymbol. destruct (lookupSymbol (symbolMap m) x);
    [left | right | right]; split; auto; discriminate.
Qed.

Lemma addSymbol_fst x m : fst (addSymbol x m) = x.
Proof.
  destruct (addSymbol_cases x m) as [[_ ->] | [_ ->]]; reflexivity.
Qed.

Lemma interned_cons x xs m :
  interned (x :: xs) m = interned xs (snd (addSymbol x m)).
Proof. reflexivity. Qed.

Lemma map_addSymbol xs m : map_ addSymbol xs m = (xs, interned xs m).
Proof.
  revert m. induction xs as [|x xs IH]; intros m; [reflexivity|].
  rewrite interned_cons. cbn [map_]. rewrite !bind_run.
  rewrite IH, addSymbol_fst. reflexivity.
Qed.

(** The loop of [forEachPrefixPair] is a fold over the window
    contributions, for a callback that leaves [depth] and [separator]
    alone. *)
Lemma forEachFrom_fold {X : Type} (f : key * value -> M X) xs :
  (forall pr m, depth (snd (f pr m)) = depth m
                /\ separator (snd (f pr m)) = separator m) ->
  forall n i m,
    forEachFrom f xs n i m =
    (tt, fold_left (fun m pr => snd (f pr m))
           (pairsFrom (depth m) (separator m) xs n i) m).
Proof.
  intros Hf. induction n as [|n IH]; intros i m; [reflexivity|].
  cbn [forEachFrom pairsFrom fold_left]. rewrite !bind_run.
  unfold prefix. cbn [fst snd]. rewrite IH.
  destruct (Hf (join (separator m) (slice xs i (i + depth m)),
                nth (i + depth m) xs Undefined) m) as [Hd Hs].
  now rewrite Hd, Hs.
Qed.

Lemma forEachPrefixPair_fold {X : Type} (f : key * value -> M X) xs m :
  (forall pr m, depth (snd (f pr m)) = depth m
                /\ separator (snd (f pr m)) = separator m) ->
  forEachPrefixPair f xs m =
  (xs, fold_left (fun m pr => snd (f pr m))
         (pairsFrom (depth m) (separator m) xs (length xs - depth m) 0) m).
Proof.
  intros Hf. unfold forEachPrefixPair. rewrite !bind_run. cbn [fst snd].
  rewrite (forEachFrom_fold f xs Hf). reflexivity.
Qed.

Lemma countPair_state pr m :
  snd (countPair pr m) = set_counts (countStep (counts m) pr) m.
Proof. reflexivity. Qed.

Lemma fold_countPair pairs m :
  fold_left (fun m pr => snd (countPair pr m)) pairs m =
  set_counts (fold_left countStep pairs (counts m)) m.
Proof.
  revert m. induction pairs as [|pr pairs IH]; intros m.
  - now destruct m.
  - cbn [fold_left]. rewrite IH. reflexivity.
Qed.

Lemma addSymbol_fields x m :
  let m' := snd (addSymbol x m) in
  depth m' = depth m /\ counts m' = counts m /\
  separator m' = separator m /\ prePadding m' = prePadding m /\
  postPadding m' = postPadding m /\ probabilities m' = probabilities m /\
  _score m' = _score m /\ _scoreFactor m' = _scoreFactor m.
Proof.
  destruct (addSymbol_cases x m) as [[_ ->] | [_ ->]]; cbn; tauto.
Qed.

Lemma interned_fields xs m :
  let m' := interned xs m in
  depth m' = depth m /\ counts m' = counts m /\
  separator m' = separator m /\ prePadding m' = prePadding m /\
  postPadding m' = postPadding m /\ probabilities m' = probabilities m /\
  _score m' = _score m /\ _scoreFactor m' = _scoreFactor m.
Proof.
  revert m. induction xs as [|x xs IH]; intros m.
  - cbn. tauto.
  - rewrite interned_cons. specialize (IH (snd (addSymbol x m))).
    pose proof (addSymbol_fields x m) as H. cbv zeta in *.
    intuition congruence.
Qed.

(** [train] interns the symbols, counts the window contributions of
    the padded sequence and drops the Probability Index. *)
Lemma trained_eq xs m :
  trained xs m =
  set_probabilities None
    (set_counts
       (fold_left countStep (contributions (interned xs m) xs) (counts m))
       (interned xs m)).
Proof.
  unfold trained, train. rewrite bind_run, map_addSymbol. cbn [fst snd].
  rewrite bind_run. unfold padInput at 1 2. cbn [fst snd].
  rewrite bind_run, map_symbolToIndex. cbn [fst snd].
  rewrite bind_run.
  rewrite forEachPrefixPair_fold by (intros; split; reflexivity).
  rewrite fold_countPair. unfold resetProbabilities. cbn [fst snd].
  unfold contributions.
  destruct (interned_fields xs m) as (_ & Hc & _). cbv zeta in Hc.
  rewrite Hc. reflexivity.
Qed.

(** ** The symbol table *)

Lemma get_tableFrom_notin syms : forall i x,
  ~ In x syms -> Obj.get (tableFrom i syms) x = None.
Proof.
  induction syms as [|s syms IH]; intros i x Hx; [reflexivity|].
  cbn [tableFrom Obj.get]. destruct (String.eqb_spec s x) as [->|_].
  - exfalso. apply Hx. now left.
  - apply IH. intros H. apply Hx. now right.
Qed.

Lemma get_tableFrom_in syms : forall i x,
  In x syms -> exists n, Obj.get (tableFrom i syms) x = Some n.
Proof.
  induction syms as [|s syms IH]; intros i x Hx; [contradiction|].
  cbn [tableFrom Obj.get]. destruct (String.eqb_spec s x) as [->|Hne].
  - now exists i.
  - apply IH. destruct Hx; [contradiction | assumption].
Qed.

Lemma get_tableFrom_None syms i x :
  Obj.get (tableFrom i syms) x = None -> ~ In x syms.
Proof.
  intros Hget Hin. destruct (get_tableFrom_in syms i x Hin) as [n Hn].
  congruence.
Qed.

Lemma set_tableFrom syms : forall i x,
  ~ In x syms ->
  Obj.set (tableFrom i syms) x (i + length syms) = tableFrom i (syms ++ [x]).
Proof.
  induction syms as [|s syms IH]; intros i x Hx.
  - cbn. now rewrite Nat.add_0_r.
  - cbn [tableFrom Obj.set app length].
    destruct (String.eqb_spec s x) as [->|_].
    + exfalso. apply Hx. now left.
    + f_equal. rewrite <- IH by (intros H; apply Hx; now right).
      f_equal. lia.
Qed.

(** Interning appends to the symbol array: the indexes already
    assigned stay. *)
Lemma addSymbol_extends x m :
  exists new, symbols (snd (addSymbol x m)) = symbols m ++ new.
Proof.
  destruct (addSymbol_cases x m) as [[_ ->] | [_ ->]].
  - exists [x]. reflexivity.
  - exists []. cbn. now rewrite app_nil_r.
Qed.

Lemma interned_extends xs : forall m,
  exists new, symbols (interned xs m) = symbols m ++ new.
Proof.
  induction xs as [|x xs IH]; intros m.
  - exists []. cbn. now rewrite app_nil_r.
  - rewrite interned_cons. destruct (addSymbol_extends x m) as [n1 H1].
    destruct (IH (snd (addSymbol x m))) as [n2 H2].
    exists (n1 ++ n2). now rewrite H2, H1, app_assoc.
Qed.

(** ** Well-formedness is invariant *)

Lemma untrained_wf d :
  1 <= d -> (Z.of_nat d <= maxStringLength + 1)%Z -> wf (untrained d).
Proof.
  intros H1 H2. constructor; cbn; auto.
  - now exists [].
  - repeat constructor; cbn; tauto.
  - intros p o H. discriminate.
Qed.

Lemma Markov_wf d m : Markov d = Ok m -> wf m.
Proof.
  intros H. destruct (Markov_Ok _ H) as (z & Hz & -> & _).
  apply untrained_wf; lia.
Qed.

Lemma addSymbol_wf x m : wf m -> wf (snd (addSymbol x m)).
Proof.
  intros [Hd Hs Hpre Hpost Hb Hmap Hnd Hown Htot Hix].
  destruct (addSymbol_cases x m) as [[E ->] | [_ ->]]; [|now constructor].
  apply lookupSymbol_Undefined in E. destruct E as [E Ex].
  rewrite Hmap in E. apply get_tableFrom_None in E.
  constructor; cbn; auto.
  - destruct Hb as [rest ->]. now exists (rest ++ [x]).
  - rewrite Hmap. apply (set_tableFrom (symbols m) 0 x E).
  - apply NoDup_app; auto.
    + repeat constructor. intros [].
    + intros a Ha [<-|[]]. contradiction.
  - apply Forall_app. split; [exact Hown | now constructor].
Qed.

Lemma interned_wf xs : forall m, wf m -> wf (interned xs m).
Proof.
  induction xs as [|x xs IH]; intros m Hm; [exact Hm|].
  rewrite interned_cons. apply IH. now apply addSymbol_wf.
Qed.

Lemma countStep_totals c pr :
  (forall p o, Obj.get c p = Some o ->
               exists z, Obj.get o "_sum" = Some (Int z)) ->
  forall p o, Obj.get (countStep c pr) p = Some o ->
              exists z, Obj.get o "_sum" = Some (Int z).
Proof.
  intros Hc p o. unfold countStep. rewrite ObjFacts.get_set.
  destruct (String.eqb (fst pr) p); [|apply Hc].
  intros [= <-]. unfold countEntry. rewrite ObjFacts.get_set_same.
  rewrite ObjFacts.get_set.
  destruct (String.eqb (toKey (snd pr)) "_sum").
  - unfold incr, incrOrZero.
    destruct (Obj.get _ (toKey (snd pr))) as [[z|]|]; eauto.
  - destruct (Obj.get c (fst pr)) as [o|] eqn:E.
    + destruct (Hc _ _ E) as [z ->]. cbn. eauto.
    + cbn. eauto.
Qed.

Lemma fold_countStep_totals pairs : forall c,
  (forall p o, Obj.get c p = Some o ->
               exists z, Obj.get o "_sum" = Some (Int z)) ->
  forall p o, Obj.get (fold_left countStep pairs c) p = Some o ->
              exists z, Obj.get o "_sum" = Some (Int z).
Proof.
  induction pairs as [|pr pairs IH]; intros c Hc; [exact Hc|].
  cbn [fold_left]. apply IH. now apply countStep_totals.
Qed.

Lemma trained_wf xs m : wf m -> wf (trained xs m).
Proof.
  intros Hm. rewrite trained_eq.
  pose proof (interned_wf xs Hm)
    as [Hd Hs Hpre Hpost Hb Hmap Hnd Hown Htot Hix].
  constructor; cbn; auto.
  apply fold_countStep_totals. apply (wf_totals Hm).
Qed.

Lemma frame_wf m m' : frame m m' -> wf m -> wf m'.
Proof.
  intros (Hd & Hc & Hsy & Hse & Hmap & Hpre & Hpost & Hpr)
    [A B C D E F G H I J].
  constructor;
    rewrite ?Hd, ?Hc, ?Hsy, ?Hse, ?Hmap, ?Hpre, ?Hpost, ?Hpr; auto.
Qed.

(** ** What [score] computes *)

Lemma set_score_same m a f :
  _score m = a -> _scoreFactor m = f -> set_score a f m = m.
Proof. destruct m; cbn; intros; subst; reflexivity. Qed.

Lemma fold_scorePair pairs : forall m acc,
  _score m = Some acc ->
  fold_left (fun m pr => snd (scorePair pr m)) pairs m =
  set_score (Some (scoreSum (counts m) pairs acc)) (_scoreFactor m) m.
Proof.
  induction pairs as [|pr pairs IH]; intros m acc Hacc.
  - cbn. symmetry. now apply set_score_same.
  - cbn [fold_left]. unfold scoreSum. cbn [fold_left].
    fold (scoreSum (counts m) pairs).
    unfold scorePair at 2.
    destruct (Obj.get (counts m) (fst pr)) as [o|]; [|now apply IH].
    destruct (truthy (Obj.get o (toKey (snd pr)))); [|now apply IH].
    cbn [snd]. erewrite IH by reflexivity. cbn. rewrite Hacc. reflexivity.
Qed.

(** [score] sums the recorded relative frequencies of the window
    contributions of the padded input and divides by the length of the
    input; it writes its two scratch fields and nothing else. *)
Lemma score_eq xs m :
  score xs m =
  let s := scoreSum (counts m) (contributions m xs) 0%float in
  ((s / Z2float (Z.of_nat (length xs)))%float,
   set_score (Some s) (Some (length xs)) m).
Proof.
  unfold score. rewrite bind_run. unfold scoreInit at 1 2. cbn [fst snd].
  rewrite bind_run. unfold padInput at 1 2. cbn [fst snd].
  rewrite bind_run, map_symbolToIndex. cbn [fst snd].
  rewrite bind_run.
  rewrite forEachPrefixPair_fold.
  2:{ intros pr m0. unfold scorePair.
      destruct (Obj.get (counts m0) (fst pr)) as [o|]; [|now split].
      destruct (truthy _); now split. }
  cbn [fst snd]. erewrite fold_scorePair by reflexivity.
  reflexivity.
Qed.

Lemma generate_state rand minLength maxLength m :
  snd (generate rand minLength maxLength m) =
  match probabilities m with
  | None => set_probabilities (Some (rebuild (counts m))) m
  | Some _ => m
  end.
Proof. reflexivity. Qed.

Lemma fromJSON_eq m :
  wf m ->
  fromJSON (toJSON m) =
  Ok (set_counts (counts m) (interned (symbols m) (untrained (depth m)))).
Proof.
  intros Hm. unfold fromJSON, toJSON. cbn [json_depth json_symbols json_counts].
  destruct (wf_depth Hm) as [H1 H2].
  rewrite Markov_accepts by lia. rewrite Nat2Z.id. reflexivity.
Qed.

Lemma reachable_wf m : reachable m -> wf m.
Proof.
  induction 1 as [d m H | xs m _ IH | rand a b m _ IH | xs m _ IH
                 | m m' _ IH H].
  - eapply Markov_wf; eauto.
  - now apply trained_wf.
  - rewrite generate_state. destruct (probabilities m) eqn:E; [exact IH|].
    destruct IH as [A B C D E' F G H I J]. constructor; cbn; auto.
  - rewrite score_eq. cbn. eapply frame_wf; [|exact IH]. repeat split.
  - rewrite (fromJSON_eq IH) in H. inversion H; subst.
    destruct (wf_depth IH) as [H1 H2].
    pose proof (interned_wf (symbols m) (untrained_wf H1 H2))
      as [A B C D E F G Ho _ _].
    destruct (interned_fields (symbols m) (untrained (depth m)))
      as (_ & _ & _ & _ & _ & Hp & _).
    constructor; cbn; auto.
    apply (wf_totals IH).
Qed.

(** ** Construction (claim C8) *)

(** C8, counterexample: a depth of 0 is not rejected; the constructor
    returns the depth-1 model. *)
Lemma Markov_zero_depth_accepted :
  Markov (Some 0%Z) = Ok (untrained 1).
Proof. reflexivity. Qed.

(** C8, as amended: a negative depth is rejected at construction time
    (the array constructor raises a RangeError); a depth of 0 is not
    rejected: it is taken for an omitted depth and yields the depth-1
    model; and whenever the constructor yields a model, the depth given
    was not negative and the model is usable: its depth is positive (the
    depth given, or 1 for a depth of 0) and its padding is that many
    boundary symbols. *)
Theorem Markov_depth_policy (d : Z) :
  ((d < 0)%Z -> Markov (Some d) = Throw RangeError) /\
  (d = 0%Z -> Markov (Some d) = Markov None) /\
  Markov None = Ok (untrained 1) /\
  (forall m, Markov (Some d) = Ok m ->
     (0 <= d)%Z /\ 1 <= depth m /\
     (d <> 0%Z -> depth m = Z.to_nat d) /\
     prePadding m = repeat "" (depth m) /\
     counts m = Obj.empty /\ probabilities m = None).
Proof.
  split; [|split; [|split]].
  - intros Hd. unfold Markov, Array_.
    destruct (Z.eqb_spec d 0); [lia|].
    destruct (Z.leb_spec 0 d); [lia | reflexivity].
  - intros ->. reflexivity.
  - reflexivity.
  - intros m H. destruct (Markov_Ok _ H) as (z & Hz & -> & Hd & Hne & _).
    cbn [depth prePadding counts probabilities untrained].
    repeat split; try lia.
Qed.

Lemma Markov_depth_policy_witness :
  Markov (Some (-1)%Z) = Throw RangeError /\
  Markov (Some 0%Z) = Markov None /\
  ((0 <= 3)%Z /\ 1 <= depth (untrained 3) /\
   (3%Z <> 0%Z -> depth (untrained 3) = Z.to_nat 3) /\
   prePadding (untrained 3) = repeat "" (depth (untrained 3)) /\
   counts (untrained 3) = Obj.empty /\
   probabilities (untrained 3) = None).
Proof.
  split; [|split].
  - apply (proj1 (Markov_depth_policy (-1))). lia.
  - apply (proj1 (proj2 (Markov_depth_policy 0))). reflexivity.
  - apply (proj2 (proj2 (proj2 (Markov_depth_policy 3)))). reflexivity.
Defined.

(** ** The boundary symbol (claim C7) *)

(** C7: in every model reachable through the constructor, [train],
    [generate], [score] and a serialization round trip, index 0 holds
    the boundary symbol (the empty string), no other index holds it, and
    the boundary symbol resolves to index 0; training only appends to
    the symbol array, so no index is ever reassigned. *)
Theorem boundary_index_reserved (m : Model) :
  reachable m ->
  nth_error (symbols m) 0 = Some "" /\
  (forall i, nth_error (symbols m) i = Some "" -> i = 0) /\
  Obj.get (symbolMap m) "" = Some 0 /\
  fst (symbolToIndex "" m) = Num 0 /\
  (forall xs, exists new, symbols (trained xs m) = symbols m ++ new).
Proof.
  intros Hr. apply reachable_wf in Hr.
  destruct (wf_boundary Hr) as [rest Hsym].
  pose proof (wf_distinct Hr) as Hnd.
  pose proof (wf_symbolMap Hr) as Hmap.
  rewrite Hsym in Hnd, Hmap.
  assert (Hget : Obj.get (symbolMap m) "" = Some 0)
    by (rewrite Hmap; reflexivity).
  repeat split.
  - now rewrite Hsym.
  - intros [|i] Hi; [reflexivity|]. rewrite Hsym in Hi. cbn in Hi.
    apply nth_error_In in Hi. now inversion Hnd.
  - exact Hget.
  - unfold symbolToIndex, lookupSymbol. cbn [fst]. now rewrite Hget.
  - intros xs. rewrite trained_eq. cbn [symbols set_probabilities set_counts].
    apply interned_extends.
Qed.

Lemma boundary_index_reserved_witness :
  let m := trained ["a"; "b"] (untrained 1) in
  nth_error (symbols m) 0 = Some "" /\
  (forall i, nth_error (symbols m) i = Some "" -> i = 0) /\
  Obj.get (symbolMap m) "" = Some 0 /\
  fst (symbolToIndex "" m) = Num 0 /\
  (forall xs, exists new, symbols (trained xs m) = symbols m ++ new).
Proof.
  apply boundary_index_reserved.
  apply reach_train. apply (reach_new (Some 1%Z)). reflexivity.
Defined.

(** ** The frame of [score] (claim C10) *)

(** C10: a call to [score] changes nothing of the model but its two
    scratch fields: depth, Chain Counter, symbol table and the
    Probability Index (present or absent) are as before, the padding
    and the separator too. *)
Theorem score_frame (xs : list string) (m : Model) :
  depth (snd (score xs m)) = depth m /\
  counts (snd (score xs m)) = counts m /\
  symbols (snd (score xs m)) = symbols m /\
  separator (snd (score xs m)) = separator m /\
  symbolMap (snd (score xs m)) = symbolMap m /\
  prePadding (snd (score xs m)) = prePadding m /\
  postPadding (snd (score xs m)) = postPadding m /\
  probabilities (snd (score xs m)) = probabilities m.
Proof. rewrite score_eq. repeat split. Qed.

(** ** Counting (claim C4) *)

Lemma string_of_uint_not_sum d : NilEmpty.string_of_uint d <> "_sum".
Proof. destruct d; discriminate. Qed.

(** A suffix index never names the reserved total ["_sum"]. *)
Lemma toKey_not_sum v : isLookup v -> toKey v <> "_sum".
Proof.
  destruct v as [|n|s]; cbn; intros H.
  - discriminate.
  - apply string_of_uint_not_sum.
  - intros ->. discriminate H.
Qed.


(** An inherited value is listed with its string. *)
Lemma inherited_string x s :
  Obj.get objectPrototype x = Some s -> inheritedString s = true.
Proof.
  unfold inheritedString. generalize objectPrototype.
  induction t as [|[k v] o IH]; cbn [Obj.get existsb snd]; [discriminate|].
  destruct (String.eqb k x).
  - intros [= ->]. now rewrite String.eqb_refl.
  - intros H. rewrite (IH H). apply orb_true_r.
Qed.

Lemma lookupSymbol_isLookup sm x : isLookup (lookupSymbol sm x).
Proof.
  destruct (lookupSymbol_cases sm x)
    as [(n & _ & ->) | [(s & _ & H & ->) | (_ & _ & ->)]]; cbn; auto.
  now apply inherited_string with x.
Qed.

Lemma indexesOf_isLookup m xs : Forall isLookup (indexesOf m xs).
Proof.
  unfold indexesOf. induction xs as [|x xs IH]; constructor; auto.
  apply lookupSymbol_isLookup.
Qed.

Lemma nth_isLookup l : Forall isLookup l -> forall i, isLookup (nth i l Undefined).
Proof.
  induction 1 as [|v l Hv _ IH]; intros [|i]; cbn; auto.
Qed.

Lemma pairsFrom_isLookup d sep xs :
  Forall isLookup xs ->
  forall n i, Forall (fun pr => isLookup (snd pr)) (pairsFrom d sep xs n i).
Proof.
  intros Hxs. induction n as [|n IH]; intros i; constructor; auto.
  cbn. now apply nth_isLookup.
Qed.

Lemma contributions_isLookup m xs :
  Forall (fun pr => isLookup (snd pr)) (contributions m xs).
Proof. apply pairsFrom_isLookup, indexesOf_isLookup. Qed.

Lemma occ_cons p s pr pairs :
  occ p s (pr :: pairs) =
  ((if String.eqb (fst pr) p && String.eqb (toKey (snd pr)) s then 1 else 0)
   + occ p s pairs)%Z.
Proof.
  unfold occ. cbn [filter].
  destruct (String.eqb (fst pr) p && String.eqb (toKey (snd pr)) s);
    cbn [length]; lia.
Qed.

Lemma total_cons p pr pairs :
  total p (pr :: pairs) =
  ((if String.eqb (fst pr) p then 1 else 0) + total p pairs)%Z.
Proof.
  unfold total. cbn [filter].
  destruct (String.eqb (fst pr) p); cbn [length]; lia.
Qed.

Lemma occ_nonneg p s pairs : (0 <= occ p s pairs)%Z.
Proof. unfold occ. lia. Qed.

Lemma total_nonneg p pairs : (0 <= total p pairs)%Z.
Proof. unfold total. lia. Qed.

Lemma get_fresh_entry (k : key) :
  k <> "_sum" -> Obj.get [("_sum", Int 0)] k = None.
Proof.
  intros Hk. cbn [Obj.get].
  destruct (String.eqb_spec "_sum" k); [congruence | reflexivity].
Qed.

(** One more pair adds one to the count of its suffix under its
    prefix, and leaves every other suffix count alone. *)
Lemma countOf_countStep c pr p s :
  s <> "_sum" -> isLookup (snd pr) ->
  countOf (countStep c pr) p s =
  (countOf c p s
   + (if String.eqb (fst pr) p && String.eqb (toKey (snd pr)) s
      then 1 else 0))%Z.
Proof.
  intros Hs Hpr. pose proof (toKey_not_sum _ Hpr) as Hk.
  unfold countStep, countOf at 1. rewrite ObjFacts.get_set.
  destruct (String.eqb_spec (fst pr) p) as [<-|Hne]; cbn [andb].
  2:{ fold (countOf c p s). lia. }
  unfold countEntry.
  rewrite ObjFacts.get_set_other by congruence.
  rewrite ObjFacts.get_set. unfold countOf.
  destruct (String.eqb_spec (toKey (snd pr)) s) as [<-|Hne].
  - destruct (Obj.get c (fst pr)) as [o|].
    + destruct (Obj.get o (toKey (snd pr))) as [[z|]|];
        cbn [incrOrZero]; lia.
    + rewrite get_fresh_entry by assumption. reflexivity.
  - destruct (Obj.get c (fst pr)) as [o|]; [lia|].
    rewrite get_fresh_entry by assumption. reflexivity.
Qed.

(** One more pair adds one to the total of its prefix. *)
Lemma countOf_countStep_sum c pr p :
  (forall q o, Obj.get c q = Some o ->
               exists z, Obj.get o "_sum" = Some (Int z)) ->
  isLookup (snd pr) ->
  countOf (countStep c pr) p "_sum" =
  (countOf c p "_sum" + (if String.eqb (fst pr) p then 1 else 0))%Z.
Proof.
  intros Hc Hpr. pose proof (toKey_not_sum _ Hpr) as Hk.
  unfold countStep, countOf at 1. rewrite ObjFacts.get_set.
  destruct (String.eqb_spec (fst pr) p) as [<-|Hne].
  2:{ fold (countOf c p "_sum"). lia. }
  unfold countEntry. rewrite ObjFacts.get_set_same.
  rewrite ObjFacts.get_set_other by congruence.
  unfold countOf. destruct (Obj.get c (fst pr)) as [o|] eqn:E.
  - destruct (Hc _ _ E) as [z ->]. reflexivity.
  - reflexivity.
Qed.

Lemma countOf_fold pairs : forall c p s,
  s <> "_sum" -> Forall (fun pr => isLookup (snd pr)) pairs ->
  countOf (fold_left countStep pairs c) p s =
  (countOf c p s + occ p s pairs)%Z.
Proof.
  induction pairs as [|pr pairs IH]; intros c p s Hs Hall.
  - unfold occ. cbn. lia.
  - inversion Hall as [|? ? Hpr Hrest]; subst. cbn [fold_left].
    rewrite IH, countOf_countStep, occ_cons by assumption. lia.
Qed.

Lemma countOf_fold_sum pairs : forall c p,
  (forall q o, Obj.get c q = Some o ->
               exists z, Obj.get o "_sum" = Some (Int z)) ->
  Forall (fun pr => isLookup (snd pr)) pairs ->
  countOf (fold_left countStep pairs c) p "_sum" =
  (countOf c p "_sum" + total p pairs)%Z.
Proof.
  induction pairs as [|pr pairs IH]; intros c p Hc Hall.
  - unfold total. cbn. lia.
  - inversion Hall as [|? ? Hpr Hrest]; subst. cbn [fold_left].
    rewrite IH, countOf_countStep_sum, total_cons; auto; [lia|].
    now apply countStep_totals.
Qed.

(** The symbol table only grows: a symbol keeps its index. *)
Lemma addSymbol_keeps y m x n :
  Obj.get (symbolMap m) x = Some n ->
  Obj.get (symbolMap (snd (addSymbol y m))) x = Some n.
Proof.
  intros Hx. destruct (addSymbol_cases y m) as [[E ->] | [_ ->]];
    [|exact Hx].
  apply lookupSymbol_Undefined in E. destruct E as [E _].
  cbn. rewrite ObjFacts.get_set_other; [exact Hx | congruence].
Qed.

Lemma interned_keeps ys : forall m x n,
  Obj.get (symbolMap m) x = Some n ->
  Obj.get (symbolMap (interned ys m)) x = Some n.
Proof.
  induction ys as [|y ys IH]; intros m x n Hx; [exact Hx|].
  rewrite interned_cons. apply IH. now apply addSymbol_keeps.
Qed.

(** What [symbolMap[x]] reads, once it is not [undefined], is what it
    reads ever after. *)
Lemma addSymbol_keeps_lookup y m x :
  lookupSymbol (symbolMap m) x <> Undefined ->
  lookupSymbol (symbolMap (snd (addSymbol y m))) x
  = lookupSymbol (symbolMap m) x.
Proof.
  intros Hx. destruct (addSymbol_cases y m) as [[E ->] | [_ ->]];
    [|reflexivity].
  cbn [snd symbolMap]. unfold lookupSymbol.
  rewrite ObjFacts.get_set_other; [reflexivity | congruence].
Qed.

Lemma interned_keeps_lookup ys : forall m x,
  lookupSymbol (symbolMap m) x <> Undefined ->
  lookupSymbol (symbolMap (interned ys m)) x
  = lookupSymbol (symbolMap m) x.
Proof.
  induction ys as [|y ys IH]; intros m x Hx; [reflexivity|].
  rewrite interned_cons, IH; rewrite addSymbol_keeps_lookup; auto.
Qed.

(** After [addSymbol(x)], [symbolMap[x]] is not [undefined]: it is the
    index of [x], or the value [x] inherits. *)
Lemma addSymbol_bound x m :
  lookupSymbol (symbolMap (snd (addSymbol x m))) x <> Undefined.
Proof.
  destruct (addSymbol_cases x m) as [[E ->] | [E ->]]; [|exact E].
  cbn [snd symbolMap]. unfold lookupSymbol.
  now rewrite ObjFacts.get_set_same.
Qed.

Lemma interned_bound xs : forall m x,
  In x xs -> lookupSymbol (symbolMap (interned xs m)) x <> Undefined.
Proof.
  induction xs as [|y xs IH]; intros m x Hx; [contradiction|].
  rewrite interned_cons. destruct Hx as [->|Hx]; [|now apply IH].
  rewrite interned_keeps_lookup; apply addSymbol_bound.
Qed.


Lemma isBound_lookup sm x :
  lookupSymbol sm x <> Undefined -> isBound (lookupSymbol sm x).
Proof.
  pose proof (lookupSymbol_isLookup sm x) as H.
  destruct (lookupSymbol sm x); cbn in *; auto.
Qed.

Lemma indexesOf_ext m m' l :
  (forall x, In x l ->
     lookupSymbol (symbolMap m') x = lookupSymbol (symbolMap m) x) ->
  indexesOf m' l = indexesOf m l.
Proof.
  intros H. unfold indexesOf. apply map_ext_in. intros x Hx.
  now rewrite H.
Qed.

Lemma trained_fields xs m :
  depth (trained xs m) = depth m /\
  separator (trained xs m) = separator m /\
  prePadding (trained xs m) = prePadding m /\
  postPadding (trained xs m) = postPadding m /\
  symbols (trained xs m) = symbols (interned xs m) /\
  symbolMap (trained xs m) = symbolMap (interned xs m) /\
  counts (trained xs m) =
    fold_left countStep (contributions (trained xs m) xs) (counts m) /\
  probabilities (trained xs m) = None.
Proof.
  rewrite trained_eq.
  destruct (interned_fields xs m) as (Hd & _ & Hs & Hpre & Hpost & _).
  cbv zeta in *. cbn. repeat split; auto.
Qed.

(** Later training leaves the window contributions of an earlier
    sequence as they were counted. *)
Lemma contributions_stable A B m :
  wf m ->
  contributions (trained B (trained A m)) A = contributions (trained A m) A.
Proof.
  intros Hm. pose proof (trained_wf A Hm) as H1.
  destruct (trained_fields B (trained A m))
    as (Hd & Hs & Hpre & Hpost & _ & Hmap & _).
  unfold contributions. rewrite Hd, Hs, Hpre, Hpost.
  rewrite (indexesOf_ext (trained A m) (trained B (trained A m))); auto.
  intros x Hx. rewrite Hmap. apply interned_keeps_lookup.
  rewrite (wf_prePadding H1), (wf_postPadding H1) in Hx.
  assert (Hb : lookupSymbol (symbolMap (trained A m)) "" <> Undefined).
  { destruct (wf_boundary H1) as [rest Hsym].
    rewrite (wf_symbolMap H1), Hsym. discriminate. }
  apply in_app_or in Hx. destruct Hx as [Hx|Hx].
  - apply repeat_spec in Hx. now subst.
  - apply in_app_or in Hx. destruct Hx as [Hx|[<-|[]]]; [|exact Hb].
    destruct (trained_fields A m) as (_ & _ & _ & _ & _ & HmapA & _).
    rewrite HmapA. now apply interned_bound.
Qed.

(** C4: training is additive.  After training a reachable model on [A]
    and then on [B], every suffix count and every per-prefix total is
    the count before plus the window contributions of [A] plus those of
    [B]; the contributions of [A] are the same before and after [B] was
    trained; and training decreases no count and no total. *)
Theorem train_additive (A B : list string) (m : Model) :
  reachable m ->
  (forall p s, s <> "_sum" ->
     countOf (counts (trained B (trained A m))) p s =
     (countOf (counts m) p s
      + occ p s (contributions (trained B (trained A m)) A)
      + occ p s (contributions (trained B (trained A m)) B))%Z) /\
  (forall p,
     countOf (counts (trained B (trained A m))) p "_sum" =
     (countOf (counts m) p "_sum"
      + total p (contributions (trained B (trained A m)) A)
      + total p (contributions (trained B (trained A m)) B))%Z) /\
  contributions (trained B (trained A m)) A = contributions (trained A m) A /\
  (forall p k,
     (countOf (counts m) p k <= countOf (counts (trained A m)) p k)%Z).
Proof.
  intros Hr. apply reachable_wf in Hr.
  pose proof (trained_wf A Hr) as H1.
  destruct (trained_fields A m) as (_ & _ & _ & _ & _ & _ & HcA & _).
  destruct (trained_fields B (trained A m))
    as (_ & _ & _ & _ & _ & _ & HcB & _).
  rewrite (contributions_stable A B Hr).
  split; [|split; [|split]].
  - intros p s Hs. rewrite HcB, countOf_fold, HcA, countOf_fold;
      auto using contributions_isLookup.
  - intros p. rewrite HcB, countOf_fold_sum, HcA, countOf_fold_sum;
      auto using contributions_isLookup.
    + apply (wf_totals Hr).
    + apply (wf_totals H1).
  - reflexivity.
  - intros p k. rewrite HcA. destruct (string_dec k "_sum") as [->|Hk].
    + rewrite countOf_fold_sum; auto using contributions_isLookup.
      * pose proof (total_nonneg p (contributions (trained A m) A)). lia.
      * apply (wf_totals Hr).
    + rewrite countOf_fold; auto using contributions_isLookup.
      pose proof (occ_nonneg p k (contributions (trained A m) A)). lia.
Qed.

Lemma train_additive_witness :
  let A := ["a"; "b"; "a"] in
  let B := ["b"; "c"] in
  let m := untrained 1 in
  (forall p s, s <> "_sum" ->
     countOf (counts (trained B (trained A m))) p s =
     (countOf (counts m) p s
      + occ p s (contributions (trained B (trained A m)) A)
      + occ p s (contributions (trained B (trained A m)) B))%Z) /\
  (forall p,
     countOf (counts (trained B (trained A m))) p "_sum" =
     (countOf (counts m) p "_sum"
      + total p (contributions (trained B (trained A m)) A)
      + total p (contributions (trained B (trained A m)) B))%Z) /\
  contributions (trained B (trained A m)) A = contributions (trained A m) A /\
  (forall p k,
     (countOf (counts m) p k <= countOf (counts (trained A m)) p k)%Z).
Proof.
  apply train_additive. apply (reach_new (Some 1%Z)). reflexivity.
Defined.

(** ** Serialization (claim C5) *)

Lemma interned_fresh xs : forall m,
  symbolMap m = tableFrom 0 (symbols m) ->
  NoDup (symbols m ++ xs) ->
  Forall (fun s => Obj.get objectPrototype s = None) xs ->
  symbols (interned xs m) = symbols m ++ xs /\
  symbolMap (interned xs m) = tableFrom 0 (symbols m ++ xs).
Proof.
  induction xs as [|x xs IH]; intros m Hmap Hnd Hown.
  - cbn. now rewrite app_nil_r.
  - rewrite interned_cons. inversion Hown as [|? ? Hox Hoxs]; subst.
    assert (Hx : ~ In x (symbols m)).
    { apply NoDup_remove_2 in Hnd. intros H. apply Hnd.
      apply in_or_app. now left. }
    assert (Hadd : symbols (snd (addSymbol x m)) = symbols m ++ [x] /\
                   symbolMap (snd (addSymbol x m))
                   = tableFrom 0 (symbols m ++ [x])).
    { destruct (addSymbol_cases x m) as [[E ->] | [E _]].
      - cbn. split; [reflexivity|].
        rewrite Hmap. apply (set_tableFrom (symbols m) 0 x Hx).
      - exfalso. apply E. apply lookupSymbol_Undefined. split; [|exact Hox].
        rewrite Hmap. now apply get_tableFrom_notin. }
    destruct Hadd as [Hs1 Hm1].
    destruct (IH (snd (addSymbol x m))) as [Hs2 Hm2].
    + now rewrite Hm1, Hs1.
    + now rewrite Hs1, <- app_assoc.
    + exact Hoxs.
    + now rewrite Hs2, Hm2, Hs1, <- app_assoc.
Qed.

(** Interning the symbol array of a model into a fresh one rebuilds
    its symbol table. *)
Lemma interned_symbols m d :
  wf m ->
  symbols (interned (symbols m) (untrained d)) = symbols m /\
  symbolMap (interned (symbols m) (untrained d)) = symbolMap m.
Proof.
  intros Hm. destruct (wf_boundary Hm) as [rest Hsym].
  pose proof (wf_distinct Hm) as Hnd. pose proof (wf_own Hm) as Hown.
  rewrite (wf_symbolMap Hm), Hsym in *.
  rewrite interned_cons.
  change (snd (addSymbol "" (untrained d))) with (untrained d).
  apply (@interned_fresh rest (untrained d));
    [reflexivity | exact Hnd | now inversion Hown].
Qed.

Lemma contributions_sameCore m m' xs :
  sameCore m m' -> contributions m' xs = contributions m xs.
Proof.
  intros (Hd & _ & _ & Hs & Hmap & Hpre & Hpost).
  unfold contributions, indexesOf. now rewrite Hd, Hs, Hmap, Hpre, Hpost.
Qed.

Lemma score_sameCore m m' xs :
  sameCore m m' -> fst (score xs m') = fst (score xs m).
Proof.
  intros H. rewrite !score_eq. cbn.
  rewrite (contributions_sameCore xs H).
  destruct H as (_ & -> & _). reflexivity.
Qed.

Lemma addSymbol_sameCore x m m' :
  sameCore m m' -> sameCore (snd (addSymbol x m)) (snd (addSymbol x m')).
Proof.
  intros (Hd & Hc & Hsy & Hs & Hmap & Hpre & Hpost).
  unfold addSymbol, sameCore. rewrite Hmap.
  destruct (lookupSymbol (symbolMap m) x); cbn; repeat split; congruence.
Qed.

Lemma interned_sameCore xs : forall m m',
  sameCore m m' -> sameCore (interned xs m) (interned xs m').
Proof.
  induction xs as [|x xs IH]; intros m m' H; [exact H|].
  rewrite !interned_cons. now apply IH, addSymbol_sameCore.
Qed.

Lemma trained_sameCore xs m m' :
  sameCore m m' -> sameCore (trained xs m) (trained xs m').
Proof.
  intros H. pose proof (interned_sameCore xs H) as Hi.
  rewrite !trained_eq. rewrite (contributions_sameCore xs Hi).
  destruct H as (_ & Hc & _).
  destruct Hi as (Hd & _ & Hsy & Hs & Hmap & Hpre & Hpost).
  unfold sameCore. cbn. repeat split; congruence.
Qed.

Lemma internRaw_strings xs : forall rm,
  strings (internRaw xs rm) = interned (map keyOf xs) (strings rm).
Proof.
  induction xs as [|x xs IH]; intros rm; [reflexivity|].
  cbn [internRaw fold_left map]. fold (internRaw xs (addSymbolRaw x rm)).
  now rewrite IH, interned_cons.
Qed.

Lemma keyOf_boundary x : keyOf x = "" -> x = SString "".
Proof. destruct x as [s| | | |[|]]; cbn; try discriminate. now intros ->. Qed.

(** Interning symbols whose strings are new, distinct and not named
    by [Object.prototype] appends them as they are. *)
Lemma internRaw_fresh xs : forall rm,
  symbolMap (strings rm) = tableFrom 0 (symbols (strings rm)) ->
  NoDup (symbols (strings rm) ++ map keyOf xs) ->
  Forall (fun s => Obj.get objectPrototype s = None) (map keyOf xs) ->
  rawSymbols (internRaw xs rm) = rawSymbols rm ++ xs.
Proof.
  induction xs as [|x xs IH]; intros rm Hmap Hnd Hown.
  - cbn. now rewrite app_nil_r.
  - cbn [internRaw fold_left map] in *.
    fold (internRaw xs (addSymbolRaw x rm)).
    inversion Hown as [|? ? Hox Hoxs]; subst.
    assert (Hx : ~ In (keyOf x) (symbols (strings rm))).
    { apply NoDup_remove_2 in Hnd. intros H. apply Hnd.
      apply in_or_app. now left. }
    assert (Hun : lookupSymbol (symbolMap (strings rm)) (keyOf x)
                  = Undefined).
    { apply lookupSymbol_Undefined. split; [|exact Hox].
      rewrite Hmap. now apply get_tableFrom_notin. }
    destruct (addSymbol_cases (keyOf x) (strings rm)) as [[_ E] | [E _]];
      [|contradiction].
    rewrite IH.
    + cbn [rawSymbols addSymbolRaw]. rewrite Hun.
      now rewrite <- app_assoc.
    + cbn [strings addSymbolRaw]. rewrite E. cbn [snd symbolMap symbols].
      rewrite Hmap. apply (set_tableFrom (symbols (strings rm)) 0 _ Hx).
    + cbn [strings addSymbolRaw]. rewrite E. cbn [snd symbols].
      now rewrite <- app_assoc.
    + exact Hoxs.
Qed.

(** C5, counterexample: after [train([Infinity])] on a depth-1 model,
    the snapshot read back holds [null] where the symbol array held
    [Infinity]; the restored model has another symbol table, and
    [score([Infinity])] is 0 on it where it is 2 on the original. *)
Lemma roundtrip_loses_symbol :
  let rm := trainRaw [SInfinity false] (newRaw 1) in
  let rm' := {| strings :=
                  set_counts (counts (strings rm))
                    (interned ["null"] (untrained 1));
                rawSymbols := [SString ""; SNull] |} in
  rawSymbols rm = [SString ""; SInfinity false] /\
  fromJSONRaw (toJSONRaw rm) = Ok rm' /\
  symbols (strings rm) = [""; "Infinity"] /\
  symbols (strings rm') = [""; "null"] /\
  scoreRaw [SInfinity false] rm = 2%float /\
  scoreRaw [SInfinity false] rm' = 0%float.
Proof. repeat split; vm_compute; reflexivity. Qed.

(** C5, as amended: for a model whose stored symbols are values that
    JSON writes and reads back as they are (strings and [null]), the
    snapshot deserializes to a model with the same depth, symbol table
    and counts and no Probability Index; [score], and [train] followed
    by [score], return on it what they return on the original, for
    every input. *)
Theorem serialization_roundtrip (rm : RawModel) :
  reachable (strings rm) ->
  symbols (strings rm) = map keyOf (rawSymbols rm) ->
  Forall (fun x => jsonCopy x = x) (rawSymbols rm) ->
  exists rm',
    fromJSONRaw (toJSONRaw rm) = Ok rm' /\
    depth (strings rm') = depth (strings rm) /\
    rawSymbols rm' = rawSymbols rm /\
    symbols (strings rm') = symbols (strings rm) /\
    symbolMap (strings rm') = symbolMap (strings rm) /\
    counts (strings rm') = counts (strings rm) /\
    probabilities (strings rm') = None /\
    (forall xs, scoreRaw xs rm' = scoreRaw xs rm) /\
    (forall xs ys,
       scoreRaw ys (trainRaw xs rm') = scoreRaw ys (trainRaw xs rm)).
Proof.
  destruct rm as [m raw]. cbn [strings rawSymbols].
  intros Hr Hsym Hjson. apply reachable_wf in Hr.
  assert (Hcopy : map jsonCopy raw = raw).
  { clear Hsym. induction Hjson as [|x l Hx _ IH]; [reflexivity|].
    cbn [map]. now rewrite Hx, IH. }
  destruct (wf_depth Hr) as [H1 H2].
  unfold fromJSONRaw, toJSONRaw.
  cbn [raw_depth raw_symbols raw_counts strings rawSymbols].
  rewrite Markov_accepts by lia. rewrite Nat2Z.id, Hcopy.
  eexists. split; [reflexivity|].
  cbn [strings rawSymbols]. rewrite internRaw_strings.
  cbn [strings]. rewrite <- Hsym.
  destruct (interned_symbols (depth m) Hr) as [Hsy Hmap].
  destruct (interned_fields (symbols m) (untrained (depth m)))
    as (Hd & _ & Hs & Hpre & Hpost & Hp & _).
  cbv zeta in *. cbn in Hd, Hs, Hpre, Hpost, Hp.
  assert (Hcore : sameCore m
            (set_counts (counts m)
               (interned (symbols m) (untrained (depth m))))).
  { repeat split; cbn; auto.
    - now rewrite (wf_separator Hr).
    - now rewrite (wf_prePadding Hr).
    - now rewrite (wf_postPadding Hr). }
  assert (Hraw : rawSymbols
                   (internRaw raw
                      {| strings := untrained (depth m);
                         rawSymbols := [SString ""] |}) = raw).
  { destruct (wf_boundary Hr) as [rest Hb].
    pose proof (wf_distinct Hr) as Hnd. pose proof (wf_own Hr) as Hown.
    rewrite Hsym in Hb, Hnd, Hown.
    destruct raw as [|x0 raw0]; [discriminate|]. cbn [map] in Hb, Hnd, Hown.
    inversion Hb as [[Hk0 Hrest]]. apply keyOf_boundary in Hk0. subst x0.
    cbn [internRaw fold_left].
    change (addSymbolRaw (SString "")
              {| strings := untrained (depth m);
                 rawSymbols := [SString ""] |})
      with {| strings := untrained (depth m);
              rawSymbols := [SString ""] |}.
    fold (internRaw raw0 {| strings := untrained (depth m);
                            rawSymbols := [SString ""] |}).
    rewrite internRaw_fresh; [reflexivity | reflexivity | exact Hnd |].
    now inversion Hown. }
  repeat apply conj.
  - exact Hd.
  - exact Hraw.
  - exact Hsy.
  - exact Hmap.
  - reflexivity.
  - exact Hp.
  - intros xs. unfold scoreRaw. cbn [strings]. now apply score_sameCore.
  - intros xs ys. unfold scoreRaw, trainRaw. cbn [strings].
    now apply score_sameCore, trained_sameCore.
Qed.

Lemma serialization_roundtrip_witness :
  let rm := trainRaw [SString "a"; SNull; SString "a"] (newRaw 2) in
  exists rm',
    fromJSONRaw (toJSONRaw rm) = Ok rm' /\
    depth (strings rm') = depth (strings rm) /\
    rawSymbols rm' = rawSymbols rm /\
    symbols (strings rm') = symbols (strings rm) /\
    symbolMap (strings rm') = symbolMap (strings rm) /\
    counts (strings rm') = counts (strings rm) /\
    probabilities (strings rm') = None /\
    (forall xs, scoreRaw xs rm' = scoreRaw xs rm) /\
    (forall xs ys,
       scoreRaw ys (trainRaw xs rm') = scoreRaw ys (trainRaw xs rm)).
Proof.
  apply serialization_roundtrip.
  - change (reachable (trained ["a"; "null"; "a"] (untrained 2))).
    apply reach_train. apply (reach_new (Some 2%Z)). reflexivity.
  - reflexivity.
  - repeat constructor.
Defined.

(** ** Generation (claims C2 and C6) *)

Lemma scan_cases r probs :
  (exists s, scan r probs = Ok s) \/ scan r probs = Throw TypeError.
Proof.
  induction probs as [|[upper sfx] probs IH]; cbn; [now right|].
  destruct (upper <? r)%float; [exact IH | left; eauto].
Qed.

(** [genSuffix] yields a property name or raises a TypeError. *)
Lemma genSuffix_cases pfx r m :
  (exists s, genSuffix pfx r m = Ok s) \/ genSuffix pfx r m = Throw TypeError.
Proof.
  unfold genSuffix. destruct (probabilities m) as [P|]; [|now right].
  destruct (Obj.get P pfx); [apply scan_cases | now right].
Qed.

(** The state of the Probability Index decides the fault: no entry for
    the key, no suffix. *)
Lemma genSuffix_unseen pfx r m :
  (forall P, probabilities m = Some P -> Obj.get P pfx = None) ->
  genSuffix pfx r m = Throw TypeError.
Proof.
  intros H. unfold genSuffix. destruct (probabilities m) as [P|]; [|reflexivity].
  now rewrite (H P eq_refl).
Qed.

Lemma generateLoop_step rand fuel m minLength maxLength string pfx sfx zCount k :
  generateLoop rand (S fuel) m minLength maxLength string pfx sfx zCount k =
  if ((Z.of_nat (length string) <? maxLength)%Z && neZero sfx)
     || (Z.of_nat (length string) <? minLength)%Z then
    if neZero sfx then
      match genSuffix (join (separator m) (tl (pfx ++ [Str sfx]))) (rand k) m with
      | Ok sfx' =>
          generateLoop rand fuel m minLength maxLength
            (string ++ [symbolAt m sfx]) (tl (pfx ++ [Str sfx])) sfx'
            zCount (S k)
      | Throw e => Throw e
      | Diverge => Diverge
      end
    else
      if (15 <? zCount + 1)%Z then Ok (string, (zCount + 1)%Z)
      else
        match genSuffix (join (separator m) pfx) (rand k) m with
        | Ok sfx' =>
            generateLoop rand fuel m minLength maxLength string pfx sfx'
              (zCount + 1)%Z (S k)
        | Throw e => Throw e
        | Diverge => Diverge
        end
  else Ok (string, zCount).
Proof. reflexivity. Qed.

(** The loop of [generate] ends within its fuel: it raises a TypeError
    or exits with at most [maxLength] symbols, and below [minLength]
    only through the [break], after more than 15 boundary draws. *)
Lemma generateLoop_spec rand m minLength maxLength :
  (minLength <= maxLength)%Z ->
  forall fuel string pfx sfx zCount k,
    (Z.of_nat (length string) <= maxLength)%Z ->
    (0 <= zCount <= 15)%Z ->
    Z.to_nat (maxLength - Z.of_nat (length string))
      + Z.to_nat (16 - zCount) < fuel ->
    match generateLoop rand fuel m minLength maxLength string pfx sfx zCount k with
    | Ok (out, z) =>
        (Z.of_nat (length out) <= maxLength)%Z /\
        ((Z.of_nat (length out) < minLength)%Z -> (15 < z)%Z) /\
        (zCount <= z <= 16)%Z
    | Throw e => e = TypeError
    | Diverge => False
    end.
Proof.
  intros Hmm. induction fuel as [|fuel IH];
    intros string pfx sfx zCount k Hlen Hz Hfuel; [lia|].
  rewrite generateLoop_step.
  destruct (Z.ltb_spec (Z.of_nat (length string)) maxLength) as [Hlt|Hge];
    destruct (Z.ltb_spec (Z.of_nat (length string)) minLength) as [Hlt'|Hge'];
    destruct (neZero sfx); cbn [andb orb]; try lia;
    try (repeat split; lia).
  - destruct (genSuffix_cases (join (separator m) (tl (pfx ++ [Str sfx])))
                (rand k) m) as [[s ->]| ->]; [|reflexivity].
    apply IH; rewrite ?length_app; cbn [length]; lia.
  - destruct (Z.ltb_spec 15 (zCount + 1)); [repeat split; lia|].
    destruct (genSuffix_cases (join (separator m) pfx) (rand k) m)
      as [[s ->]| ->]; [|reflexivity].
    assert (H' := IH string pfx s (zCount + 1)%Z (S k) Hlen
                    ltac:(lia) ltac:(lia)).
    destruct (generateLoop rand fuel m minLength maxLength string pfx s
                (zCount + 1) (S k)) as [[out z]| |];
      [|exact H'|exact H'].
    repeat split; try tauto; lia.
  - destruct (genSuffix_cases (join (separator m) (tl (pfx ++ [Str sfx])))
                (rand k) m) as [[s ->]| ->]; [|reflexivity].
    apply IH; rewrite ?length_app; cbn [length]; lia.
Qed.

Lemma generate_bounds rand m minLength maxLength :
  (0 <= minLength <= maxLengthOr minLength maxLength)%Z ->
  match generateExit rand minLength maxLength m with
  | Ok (out, zCount) =>
      fst (generate rand minLength maxLength m) = Ok out /\
      (Z.of_nat (length out) <= maxLengthOr minLength maxLength)%Z /\
      ((Z.of_nat (length out) < minLength)%Z -> (15 < zCount)%Z)
  | Throw e =>
      e = TypeError /\
      fst (generate rand minLength maxLength m) = Throw TypeError
  | Diverge => False
  end.
Proof.
  intros Hmm. unfold generate. cbn [fst].
  unfold generateExit.
  destruct (genSuffix_cases
              (join (separator (refreshed m))
                 (fst (map_ symbolToIndex (prePadding (refreshed m))
                         (refreshed m))))
              (rand 0) (refreshed m)) as [[s ->]| ->]; [|now split].
  pose proof (@generateLoop_spec rand (refreshed m) minLength
                (maxLengthOr minLength maxLength) (proj2 Hmm)
                (generateFuel minLength (maxLengthOr minLength maxLength))
                [] (fst (map_ symbolToIndex (prePadding (refreshed m))
                           (refreshed m))) s 0%Z 1) as H.
  destruct (generateLoop _ _ _ _ _ _ _ _ _ _) as [[out z]|e|].
  - destruct H as (H1 & H2 & _); cbn [length]; try lia.
    + unfold generateFuel. lia.
    + repeat split; assumption.
  - split; [|f_equal]; apply H; cbn [length]; try lia;
      unfold generateFuel; lia.
  - apply H; cbn [length]; try lia. unfold generateFuel. lia.
Qed.

(** C6, counterexample: on an untrained model [generate(2, 2)] returns
    no sequence; it raises a TypeError. *)
Lemma generate_untrained_no_sequence :
  fst (generate (fun _ => 0.5%float) 2 (Some 2%Z) (untrained 1))
  = Throw TypeError.
Proof. reflexivity. Qed.

(** For all integers [0 <= minLength <= maxLength],
    [generate(minLength, maxLength)] ends: it raises a TypeError or it
    returns a sequence of at most [maxLength] symbols, which is shorter
    than [minLength] only if the loop consumed more than 15 boundary
    draws ([zCount > 15]). *)
Lemma generateExit_bounds (rand : nat -> float) (m : Model)
  (minLength maxLength : Z) :
  (0 <= minLength <= maxLength)%Z ->
  match generateExit rand minLength (Some maxLength) m with
  | Ok (out, zCount) =>
      fst (generate rand minLength (Some maxLength) m) = Ok out /\
      (Z.of_nat (length out) <= maxLength)%Z /\
      ((Z.of_nat (length out) < minLength)%Z -> (15 < zCount)%Z)
  | Throw e =>
      e = TypeError /\
      fst (generate rand minLength (Some maxLength) m) = Throw TypeError
  | Diverge => False
  end.
Proof.
  intros Hmm.
  assert (Hor : maxLengthOr minLength (Some maxLength) = maxLength).
  { unfold maxLengthOr. destruct (Z.eqb_spec maxLength 0); lia. }
  pose proof (@generate_bounds rand m minLength (Some maxLength)) as H.
  rewrite Hor in H. apply H. exact Hmm.
Qed.

Lemma refreshed_index m : probabilities (refreshed m) = Some (indexOf m).
Proof.
  unfold refreshed, indexOf. destruct (probabilities m) eqn:E; [exact E|].
  reflexivity.
Qed.

Lemma refreshed_startKey m :
  join (separator (refreshed m))
    (fst (map_ symbolToIndex (prePadding (refreshed m)) (refreshed m)))
  = startKey m.
Proof.
  rewrite map_symbolToIndex. unfold refreshed, startKey.
  destruct (probabilities m); reflexivity.
Qed.

(** A model whose start state has no entry in the Probability Index
    cannot generate: the first draw raises. *)
Lemma generate_start_unseen rand minLength maxLength m :
  Obj.get (indexOf m) (startKey m) = None ->
  fst (generate rand minLength maxLength m) = Throw TypeError.
Proof.
  intros H. unfold generate, generateExit. cbn [fst].
  rewrite refreshed_startKey, genSuffix_unseen; [reflexivity|].
  intros P HP. rewrite refreshed_index in HP. now inversion HP; subst.
Qed.

(** So does a push that moves the window onto a state with no entry. *)
Lemma generateLoop_unseen rand fuel m minLength maxLength string pfx sfx
  zCount k :
  ((Z.of_nat (length string) <? maxLength)%Z && neZero sfx
   || (Z.of_nat (length string) <? minLength)%Z) = true ->
  neZero sfx = true ->
  (forall P, probabilities m = Some P ->
             Obj.get P (join (separator m) (tl (pfx ++ [Str sfx]))) = None) ->
  generateLoop rand (S fuel) m minLength maxLength string pfx sfx zCount k
  = Throw TypeError.
Proof.
  intros Hc Hn Hu. rewrite generateLoop_step, Hc, Hn.
  now rewrite genSuffix_unseen.
Qed.

(** Comparison of doubles: [<] is asymmetric. *)
Lemma SFltb_asym a b : SFltb a b = true -> SFltb b a = false.
Proof.
  unfold SFltb, SFcompare.
  destruct a as [s|s| |s m e], b as [s'|s'| |s' m' e'];
    try destruct s; try destruct s'; try congruence.
  - rewrite (Z.compare_antisym e e'). destruct (Z.compare e e'); cbn;
      try congruence.
    change (PosDef.Pos.compare_cont Eq) with Pos.compare.
    rewrite (Pos.compare_antisym m m'). destruct (Pos.compare m m'); cbn;
      congruence.
  - rewrite (Z.compare_antisym e e'). destruct (Z.compare e e'); cbn;
      try congruence.
    change (PosDef.Pos.compare_cont Eq) with Pos.compare.
    rewrite (Pos.compare_antisym m m'). destruct (Pos.compare m m'); cbn;
      congruence.
Qed.

Lemma ltb_asym (x y : float) :
  (x <? y)%float = true -> (y <? x)%float = false.
Proof. rewrite !FloatAxioms.ltb_spec. apply SFltb_asym. Qed.

(** A draw below 1 stops at an entry whose cumulative mass is 1. *)
Lemma genSuffix_certain m pfx r P s rest :
  probabilities m = Some P ->
  Obj.get P pfx = Some ((1%float, s) :: rest) ->
  (r <? 1)%float = true ->
  genSuffix pfx r m = Ok s.
Proof.
  intros HP Hget Hr. unfold genSuffix. rewrite HP, Hget. cbn [scan].
  now rewrite (ltb_asym Hr).
Qed.

Lemma generateLoop_push rand fuel m minLength maxLength string pfx sfx
  zCount k sfx' :
  (Z.of_nat (length string) <? maxLength)%Z = true ->
  neZero sfx = true ->
  genSuffix (join (separator m) (tl (pfx ++ [Str sfx]))) (rand k) m = Ok sfx' ->
  generateLoop rand (S fuel) m minLength maxLength string pfx sfx zCount k =
  generateLoop rand fuel m minLength maxLength
    (string ++ [symbolAt m sfx]) (tl (pfx ++ [Str sfx])) sfx' zCount (S k).
Proof.
  intros Hl Hn Hg. now rewrite generateLoop_step, Hl, Hn, Hg.
Qed.

Lemma generateLoop_exit rand fuel m minLength maxLength string pfx sfx
  zCount k :
  ((Z.of_nat (length string) <? maxLength)%Z && neZero sfx
   || (Z.of_nat (length string) <? minLength)%Z) = false ->
  generateLoop rand (S fuel) m minLength maxLength string pfx sfx zCount k =
  Ok (string, zCount).
Proof. intros Hc. now rewrite generateLoop_step, Hc. Qed.

(** The scenario of the specification: depth 2, trained on [x, y, z]
    only.  Whatever is drawn in [0, 1), [generate(1, 10)] walks the one
    recorded chain and returns [x, y, z]. *)
Lemma generate_xyz rand :
  (forall k, (rand k <? 1)%float = true) ->
  fst (generate rand 1 (Some 10%Z) (trained ["x"; "y"; "z"] (untrained 2)))
  = Ok [Some "x"; Some "y"; Some "z"].
Proof.
  intros Hrand. unfold generate, generateExit. cbn [fst].
  set (m := refreshed (trained ["x"; "y"; "z"] (untrained 2))).
  change (maxLengthOr 1 (Some 10%Z)) with 10%Z.
  change (generateFuel 1 10) with 27.
  rewrite map_symbolToIndex.
  replace (indexesOf m (prePadding m)) with [Num 0; Num 0]
    by (vm_compute; reflexivity).
  erewrite (@genSuffix_certain m _ (rand 0));
    [|vm_compute; reflexivity|vm_compute; reflexivity|apply Hrand].
  erewrite generateLoop_push;
    [|reflexivity|reflexivity|
     eapply genSuffix_certain;
       [vm_compute; reflexivity|vm_compute; reflexivity|apply Hrand]].
  erewrite generateLoop_push;
    [|reflexivity|reflexivity|
     eapply genSuffix_certain;
       [vm_compute; reflexivity|vm_compute; reflexivity|apply Hrand]].
  erewrite generateLoop_push;
    [|reflexivity|reflexivity|
     eapply genSuffix_certain;
       [vm_compute; reflexivity|vm_compute; reflexivity|apply Hrand]].
  rewrite generateLoop_exit by reflexivity.
  vm_compute. reflexivity.
Qed.

(** C2, counterexample: the start state of an untrained depth-2 model
    has no entry in the Probability Index, and [generate(1, 10)] does
    not stop with the empty output: it raises a TypeError. *)
Lemma generate_unseen_state_throws :
  Obj.get (indexOf (untrained 2)) (startKey (untrained 2)) = None /\
  fst (generate (fun _ => 0.5%float) 1 (Some 10%Z) (untrained 2))
  = Throw TypeError.
Proof. split; reflexivity. Qed.

(** C2, as amended: a state with no entry in the Probability Index is
    not a terminal condition but a fault.  [generate] raises a TypeError
    when its start state has no entry, and so does the loop when a push
    moves the window onto a state with no entry.  In the scenario of the
    specification (depth 2, trained on [x, y, z] only) no such state is
    met: for all draws in [0, 1), [generate(1, 10)] returns [x, y, z],
    of length 3, and raises nothing. *)
Theorem generate_unseen_state_faults :
  (forall rand minLength maxLength m,
     Obj.get (indexOf m) (startKey m) = None ->
     fst (generate rand minLength maxLength m) = Throw TypeError) /\
  (forall rand fuel m minLength maxLength string pfx sfx zCount k,
     ((Z.of_nat (length string) <? maxLength)%Z && neZero sfx
      || (Z.of_nat (length string) <? minLength)%Z) = true ->
     neZero sfx = true ->
     (forall P, probabilities m = Some P ->
        Obj.get P (join (separator m) (tl (pfx ++ [Str sfx]))) = None) ->
     generateLoop rand (S fuel) m minLength maxLength string pfx sfx zCount k
     = Throw TypeError) /\
  (forall rand,
     (forall k, (rand k <? 1)%float = true) ->
     fst (generate rand 1 (Some 10%Z) (trained ["x"; "y"; "z"] (untrained 2)))
     = Ok [Some "x"; Some "y"; Some "z"]).
Proof.
  split; [|split].
  - intros. now apply generate_start_unseen.
  - intros. now apply generateLoop_unseen.
  - apply generate_xyz.
Qed.

Lemma generate_unseen_state_faults_witness :
  fst (generate (fun _ => 0.25%float) 3 None (untrained 1)) = Throw TypeError /\
  fst (generate (fun _ => 0.25%float) 1 (Some 10%Z)
         (trained ["x"; "y"; "z"] (untrained 2)))
  = Ok [Some "x"; Some "y"; Some "z"].
Proof.
  split.
  - apply (proj1 generate_unseen_state_faults). reflexivity.
  - apply (proj2 (proj2 generate_unseen_state_faults)).
    intros k. reflexivity.
Defined.

(** ** The rebuilt Probability Index (claim C1) *)

Lemma In_insertIndex n k l : In (n, k) (Obj.insertIndex n k l).
Proof.
  induction l as [|[n' k'] l IH]; cbn; [now left|].
  destruct (n <? n')%N; [now left | now right].
Qed.

Lemma insertIndex_incl n k l x : In x l -> In x (Obj.insertIndex n k l).
Proof.
  induction l as [|[n' k'] l IH]; cbn; [contradiction|].
  intros [<-|Hx]; destruct (n <? n')%N; cbn; auto.
Qed.

(** [for ... in] visits every property of an object. *)
Lemma ownKeys_complete {V : Type} (o : Obj.t V) k :
  Obj.get o k <> None -> In k (Obj.ownKeys o).
Proof.
  unfold Obj.ownKeys. induction o as [|[k0 v] o IH]; cbn [Obj.get];
    [congruence|].
  cbn [Obj.indexKeys Obj.nameKeys].
  destruct (String.eqb_spec k0 k) as [->|Hne]; intros H.
  - destruct (arrayIndex k) as [n|]; apply in_or_app.
    + left. apply (in_map snd _ (n, k)), In_insertIndex.
    + right. now left.
  - specialize (IH H). apply in_app_or in IH. apply in_or_app.
    destruct (arrayIndex k0) as [n|].
    + destruct IH as [IH|IH]; [left | now right].
      apply in_map_iff in IH. destruct IH as [x [<- Hx]].
      apply in_map. now apply insertIndex_incl.
    + destruct IH as [IH|IH]; [now left | right; now right].
Qed.

Lemma cumulate_keys o sfxs : forall upper,
  map snd (cumulate o sfxs upper) = sfxs.
Proof.
  induction sfxs as [|sfx rest IH]; intros upper; cbn; [reflexivity|].
  now rewrite IH.
Qed.

Lemma rebuild_fold c p o :
  Obj.get c p = Some o ->
  forall keys P,
    Obj.get P p = Some (probsOf o) \/ In p keys ->
    Obj.get
      (fold_left
         (fun P pfx =>
            match Obj.get c pfx with
            | Some o => Obj.set P pfx (probsOf o)
            | None => P
            end) keys P) p
    = Some (probsOf o).
Proof.
  intros Hp. induction keys as [|k keys IH]; intros P H; cbn [fold_left].
  - destruct H as [H|[]]. exact H.
  - apply IH. destruct (String.eqb_spec k p) as [->|Hne].
    + left. rewrite Hp. apply ObjFacts.get_set_same.
    + destruct H as [H|[H|H]]; [left | contradiction | now right].
      destruct (Obj.get c k); [|exact H].
      now rewrite ObjFacts.get_set_other.
Qed.

(** The rebuilt list of a prefix is the cumulated list of its chain
    entry. *)
Lemma get_rebuild c p o :
  Obj.get c p = Some o -> Obj.get (rebuild c) p = Some (probsOf o).
Proof.
  intros Hp. apply (rebuild_fold c p Hp). right.
  apply ownKeys_complete. congruence.
Qed.

(** In a reachable model a cached Probability Index is the one a
    rebuild would give. *)
Lemma indexOf_reachable m : reachable m -> indexOf m = rebuild (counts m).
Proof.
  intros Hr. apply reachable_wf in Hr. unfold indexOf.
  destruct (wf_index Hr) as [-> | ->]; reflexivity.
Qed.


(** C1, at the failing input: after [train(["a"])] on a depth-1 model,
    the rebuilt cumulative list of each prefix pairs a mass with the
    reserved property ["_sum"], and its last mass is 2, not 1. *)
Theorem rebuild_pairs_sum_field :
  probabilities (snd (updateProbabilities (trained ["a"] (untrained 1)))) =
  Some [("0", [(1%float, "1"); (2%float, "_sum")]);
        ("1", [(1%float, "0"); (2%float, "_sum")])].
Proof. vm_compute. reflexivity. Qed.

(** The entry for ["_sum"] can be drawn.  After seven one-symbol
    sequences were trained, the seven genuine suffixes of the start
    state cumulate to 1 - 2^-52 in double arithmetic; the draw
    1 - 2^-53, which is below 1, passes them all: [genSuffix] returns
    ["_sum"], and [generate] pushes [undefined] and then raises on the
    unseen state ["_sum"]. *)
Lemma generate_draws_sum :
  let m := fold_left (fun m x => trained [x] m)
             ["a"; "b"; "c"; "d"; "e"; "f"; "g"] (untrained 1) in
  let r := PrimFloat.next_down 1%float in
  (r <? 1)%float = true /\
  genSuffix (startKey m) r (refreshed m) = Ok "_sum" /\
  fst (generate (fun _ => r) 1 (Some 1%Z) m) = Throw TypeError.
Proof. vm_compute. repeat split. Qed.

(** ** The range of [score] (claims C3 and C9) *)

(** C3, at the failing input: a depth-1 model trained on [["a"]] scores
    [["a"]] at 2: the two transitions of the padded input each add 1, and
    the sum is divided by the length 1 of the input. *)
Theorem score_exceeds_one :
  fst (score ["a"] (trained ["a"] (untrained 1))) = 2%float.
Proof. vm_compute. reflexivity. Qed.

(** C9, at the failing input: the score of the empty sequence is the
    quotient by its length 0: NaN on an untrained model, and infinity
    once the empty sequence was trained. *)
Theorem score_empty_sequence :
  fst (score [] (untrained 1)) = nan /\
  fst (score [] (trained [] (untrained 1))) = infinity.
Proof. split; vm_compute; reflexivity. Qed.

(** * Further properties of the code *)

(** ** The symbol table: [addSymbol] and [symbolToIndex] *)



Lemma ownName_true x : ownName x = true <-> Obj.get objectPrototype x = None.
Proof.
  unfold ownName. destruct (Obj.get objectPrototype x); split; congruence.
Qed.




Lemma existsb_eqb_In x seen :
  existsb (String.eqb x) seen = true <-> In x seen.
Proof.
  rewrite existsb_exists. split.
  - intros [y [Hy E]]. apply String.eqb_eq in E. now subst.
  - intros H. exists x. split; [exact H | apply String.eqb_refl].
Qed.

Lemma interned_newSymbols xs : forall m,
  symbolMap m = tableFrom 0 (symbols m) ->
  symbols (interned xs m)
  = symbols m ++ newSymbols (symbols m) (filter ownName xs) /\
  symbolMap (interned xs m) = tableFrom 0 (symbols (interned xs m)).
Proof.
  induction xs as [|x xs IH]; intros m Hmap.
  - cbn. now rewrite app_nil_r.
  - rewrite interned_cons. cbn [filter].
    destruct (addSymbol_cases x m) as [[E Hadd] | [E Hadd]].
    + apply lookupSymbol_Undefined in E. destruct E as [E Ho].
      apply ownName_true in Ho. rewrite Ho. cbn [newSymbols].
      rewrite Hmap in E. apply get_tableFrom_None in E.
      assert (Hex : existsb (String.eqb x) (symbols m) = false).
      { destruct (existsb (String.eqb x) (symbols m)) eqn:G; [|reflexivity].
        apply existsb_eqb_In in G. contradiction. }
      rewrite Hex, Hadd. cbn [snd].
      match goal with |- context [interned xs ?M] =>
        destruct (IH M) as [Hs2 Hm2] end.
      * cbn [symbolMap symbols]. rewrite Hmap.
        apply (set_tableFrom (symbols m) 0 x E).
      * split; [|exact Hm2].
        rewrite Hs2. cbn [symbols]. now rewrite <- app_assoc.
    + rewrite Hadd. cbn [snd]. destruct (ownName x) eqn:Ho; [|now apply IH].
      cbn [newSymbols].
      assert (Hex : existsb (String.eqb x) (symbols m) = true).
      { apply existsb_eqb_In. apply ownName_true in Ho.
        destruct (in_dec string_dec x (symbols m)) as [Hin|Hnin];
          [exact Hin|].
        exfalso. apply E. apply lookupSymbol_Undefined. split; [|exact Ho].
        rewrite Hmap. now apply get_tableFrom_notin. }
      rewrite Hex. now apply IH.
Qed.



(** ** The windows of [forEachPrefixPair] over a padded input *)



Lemma indexesOf_app m a b :
  indexesOf m (a ++ b) = indexesOf m a ++ indexesOf m b.
Proof. unfold indexesOf. apply map_app. Qed.

Lemma indexesOf_length m a : length (indexesOf m a) = length a.
Proof. unfold indexesOf. apply length_map. Qed.

Lemma indexesOf_boundary m n :
  wf m -> indexesOf m (repeat "" n) = repeat (Num 0) n.
Proof.
  intros Hm. destruct (wf_boundary Hm) as [rest Hsym].
  induction n as [|n IH]; [reflexivity|].
  cbn [repeat indexesOf map]. fold (indexesOf m (repeat "" n)).
  rewrite IH, (wf_symbolMap Hm), Hsym. reflexivity.
Qed.

(** The start state of every well-formed model of one depth is the
    same key: [depth] boundary indexes. *)
Lemma startKey_wf m :
  wf m -> startKey m = join "," (repeat (Num 0) (depth m)).
Proof.
  intros Hm. unfold startKey.
  now rewrite (wf_separator Hm), (wf_prePadding Hm), indexesOf_boundary.
Qed.

Lemma contributions_wf m xs :
  wf m ->
  contributions m xs =
  pairsFrom (depth m) (separator m)
    (repeat (Num 0) (depth m) ++ indexesOf m xs ++ [Num 0])
    (S (length xs)) 0.
Proof.
  intros Hm. unfold contributions.
  rewrite (wf_prePadding Hm), (wf_postPadding Hm), !indexesOf_app.
  rewrite (indexesOf_boundary (depth m) Hm).
  change [""] with (repeat "" 1). rewrite (indexesOf_boundary 1 Hm).
  cbn [repeat]. f_equal.
  rewrite !length_app, repeat_length, indexesOf_length. cbn [length]. lia.
Qed.



(** ** The start state of [generate] *)

Lemma countStep_keeps c pr p :
  Obj.get c p <> None -> Obj.get (countStep c pr) p <> None.
Proof.
  intros H. unfold countStep. rewrite ObjFacts.get_set.
  destruct (String.eqb (fst pr) p); [discriminate | exact H].
Qed.

Lemma fold_countStep_keeps pairs : forall c p,
  Obj.get c p <> None -> Obj.get (fold_left countStep pairs c) p <> None.
Proof.
  induction pairs as [|pr pairs IH]; intros c p H; [exact H|].
  cbn [fold_left]. now apply IH, countStep_keeps.
Qed.

Lemma fold_countStep_adds pairs : forall c pr,
  In pr pairs -> Obj.get (fold_left countStep pairs c) (fst pr) <> None.
Proof.
  induction pairs as [|pr0 pairs IH]; intros c pr Hin; [contradiction|].
  cbn [fold_left]. destruct Hin as [->|Hin]; [|now apply IH].
  apply fold_countStep_keeps. unfold countStep.
  rewrite ObjFacts.get_set_same. discriminate.
Qed.

Lemma Markov_untrained d m :
  Markov d = Ok m -> exists n, m = untrained n.
Proof.
  intros H. destruct (Markov_Ok _ H) as (z & _ & -> & _). eauto.
Qed.

Lemma trained_start_known xs m :
  wf m ->
  Obj.get (counts (trained xs m)) (startKey (trained xs m)) <> None.
Proof.
  intros Hm. pose proof (trained_wf xs Hm) as Ht.
  destruct (trained_fields xs m) as (_ & _ & _ & _ & _ & _ & Hc & _).
  rewrite Hc at 1. rewrite (contributions_wf xs Ht). cbn [pairsFrom].
  set (pr := (join (separator (trained xs m)) _, _)).
  replace (startKey (trained xs m)) with (fst pr).
  - apply fold_countStep_adds. now left.
  - subst pr. cbn [fst].
    rewrite (startKey_wf Ht), (wf_separator Ht). f_equal.
    unfold slice. cbn [Nat.add skipn]. rewrite Nat.sub_0_r.
    rewrite firstn_app, repeat_length, Nat.sub_diag, firstn_O, app_nil_r.
    rewrite firstn_all2 by (rewrite repeat_length; lia). reflexivity.
Qed.

(** A reachable model was never trained, or it knows its start state. *)
Lemma reachable_start m :
  reachable m ->
  counts m = Obj.empty \/ Obj.get (counts m) (startKey m) <> None.
Proof.
  induction 1 as [d m H | xs m Hr _ | rand a b m Hr IH | xs m Hr IH
                 | m m' Hr IH H].
  - left. destruct (Markov_untrained _ H) as [n ->]. reflexivity.
  - right. apply trained_start_known. now apply reachable_wf.
  - rewrite generate_state.
    destruct (probabilities m); [exact IH|]. exact IH.
  - rewrite score_eq. exact IH.
  - pose proof (reachable_wf Hr) as Hm.
    assert (Hm' : wf m') by (apply reachable_wf; eapply reach_json; eauto).
    rewrite (fromJSON_eq Hm) in H. inversion H; subst. clear H.
    rewrite (startKey_wf Hm'). rewrite (startKey_wf Hm) in IH.
    destruct (interned_fields (symbols m) (untrained (depth m)))
      as (Hd & _). cbv zeta in Hd. cbn in Hd |- *. rewrite Hd. exact IH.
Qed.



(** ** The chain entries [countPair] maintains *)

Lemma get_In {V : Type} (o : Obj.t V) k v :
  Obj.get o k = Some v -> In (k, v) o.
Proof.
  induction o as [|[k0 v0] o IH]; cbn [Obj.get]; [discriminate|].
  destruct (String.eqb_spec k0 k) as [->|_].
  - intros [= ->]. now left.
  - intros H. right. auto.
Qed.

Lemma get_None_keys {V : Type} (o : Obj.t V) k :
  Obj.get o k = None -> ~ In k (map fst o).
Proof.
  induction o as [|[k0 v0] o IH]; cbn [Obj.get map fst]; [tauto|].
  destruct (String.eqb_spec k0 k) as [->|Hne]; [discriminate|].
  intros H [E|Hin]; [contradiction | now apply IH].
Qed.

Lemma set_keys {V : Type} (o : Obj.t V) k v :
  map fst (Obj.set o k v) =
  match Obj.get o k with
  | Some _ => map fst o
  | None => map fst o ++ [k]
  end.
Proof.
  induction o as [|[k0 v0] o IH]; cbn [Obj.set Obj.get map fst app];
    [reflexivity|].
  destruct (String.eqb_spec k0 k) as [->|Hne]; cbn [map fst]; [reflexivity|].
  rewrite IH. now destruct (Obj.get o k).
Qed.

(** Writing a property keeps the property names of an object distinct. *)
Lemma set_NoDup {V : Type} (o : Obj.t V) k v :
  NoDup (map fst o) -> NoDup (map fst (Obj.set o k v)).
Proof.
  intros H. rewrite set_keys. destruct (Obj.get o k) eqn:E; [exact H|].
  apply NoDup_app; auto.
  - repeat constructor. intros [].
  - intros a Ha [<-|[]]. now apply get_None_keys in E.
Qed.

Lemma set_In {V : Type} (o : Obj.t V) k v k' v' :
  In (k', v') (Obj.set o k v) -> (k' = k /\ v' = v) \/ In (k', v') o.
Proof.
  induction o as [|[k0 v0] o IH]; cbn [Obj.set].
  - intros [[= <- <-]|[]]. now left.
  - destruct (String.eqb_spec k0 k) as [->|Hne].
    + intros [[= <- <-]|H]; [now left | right; now right].
    + intros [H|H]; [right; now left|].
      destruct (IH H) as [?|?]; [now left | right; now right].
Qed.

Lemma suffixSum_set_sum o v :
  suffixSum (Obj.set o "_sum" v) = suffixSum o.
Proof.
  induction o as [|[k0 v0] o IH]; cbn [Obj.set suffixSum].
  - rewrite String.eqb_refl. reflexivity.
  - destruct (String.eqb_spec k0 "_sum") as [->|Hne]; cbn [suffixSum].
    + rewrite String.eqb_refl. reflexivity.
    + rewrite IH. destruct (String.eqb_spec k0 "_sum"); [contradiction|].
      reflexivity.
Qed.

Lemma suffixSum_set o k z :
  k <> "_sum" ->
  suffixSum (Obj.set o k (Int z)) =
  (suffixSum o
   - match Obj.get o k with Some (Int z0) => z0 | _ => 0 end + z)%Z.
Proof.
  intros Hk. induction o as [|[k0 v0] o IH];
    cbn [Obj.set Obj.get suffixSum].
  - destruct (String.eqb_spec k "_sum"); [contradiction | lia].
  - destruct (String.eqb_spec k0 k) as [->|Hne]; cbn [suffixSum].
    + destruct (String.eqb_spec k "_sum"); [contradiction|].
      destruct v0; lia.
    + rewrite IH. lia.
Qed.

Lemma suffixSum_nonneg o :
  (forall k v, In (k, v) o -> exists z, v = Int z /\ (1 <= z)%Z) ->
  (0 <= suffixSum o)%Z.
Proof.
  induction o as [|[k0 v0] o IH]; intros H; cbn [suffixSum]; [lia|].
  assert (0 <= suffixSum o)%Z by (apply IH; intros; apply (H k v); now right).
  destruct (H k0 v0 (or_introl eq_refl)) as [z [-> Hz]].
  destruct (String.eqb k0 "_sum"); lia.
Qed.

(** Counting a suffix in a sound entry gives a sound entry. *)
Lemma countEntry_sound o s :
  s <> "_sum" -> entrySound o -> entrySound (countEntry o s).
Proof.
  intros Hs (Hnd & Hval & Hsum). unfold countEntry.
  assert (Hg : Obj.get (Obj.set o s (incrOrZero (Obj.get o s))) "_sum"
               = Some (Int (suffixSum o)))
    by (rewrite ObjFacts.get_set_other; assumption).
  assert (Hnew : exists z, incrOrZero (Obj.get o s) = Int z /\ (1 <= z)%Z /\
                   z = (match Obj.get o s with Some (Int z0) => z0 | _ => 0 end
                        + 1)%Z).
  { destruct (Obj.get o s) as [v|] eqn:E.
    - destruct (Hval _ _ (get_In _ _ E)) as [z [-> Hz]].
      exists (z + 1)%Z. cbn. repeat split; lia.
    - exists 1%Z. cbn. repeat split; lia. }
  destruct Hnew as (z & Hz & Hz1 & Hzeq). rewrite Hg, Hz in *. cbn [incr].
  pose proof (suffixSum_nonneg _ Hval) as Hnn.
  repeat split.
  - now apply set_NoDup, set_NoDup.
  - intros k v Hin. apply set_In in Hin. destruct Hin as [[-> ->]|Hin].
    + exists (suffixSum o + 1)%Z. split; [reflexivity | lia].
    + apply set_In in Hin. destruct Hin as [[-> ->]|Hin]; eauto.
  - rewrite ObjFacts.get_set_same, suffixSum_set_sum, suffixSum_set by assumption.
    do 2 f_equal. lia.
Qed.

(** The first pair counted under a prefix creates a sound entry. *)
Lemma countEntry_fresh s :
  s <> "_sum" -> entrySound (countEntry [("_sum", Int 0)] s).
Proof.
  intros Hs. unfold countEntry.
  rewrite (get_fresh_entry Hs). cbn [incrOrZero Obj.set].
  destruct (String.eqb_spec "_sum" s) as [E|_]; [congruence|].
  cbn [Obj.get]. rewrite String.eqb_refl. cbn [incr Obj.set].
  rewrite String.eqb_refl. repeat split.
  - cbn. repeat constructor; cbn; [intros [E|[]]; congruence | tauto].
  - intros k v [[= <- <-]|[[= <- <-]|[]]]; eexists; split; try reflexivity; lia.
  - cbn [Obj.get suffixSum]. rewrite String.eqb_refl.
    destruct (String.eqb_spec s "_sum"); [contradiction | reflexivity].
Qed.

Lemma countStep_sound c pr :
  isLookup (snd pr) -> countsSound c -> countsSound (countStep c pr).
Proof.
  intros Hpr Hc p o. pose proof (toKey_not_sum _ Hpr) as Hk.
  unfold countStep. rewrite ObjFacts.get_set.
  destruct (String.eqb (fst pr) p); [|apply Hc].
  intros [= <-]. destruct (Obj.get c (fst pr)) as [o|] eqn:E.
  - apply countEntry_sound; eauto.
  - now apply countEntry_fresh.
Qed.

Lemma fold_countStep_sound pairs : forall c,
  Forall (fun pr => isLookup (snd pr)) pairs ->
  countsSound c -> countsSound (fold_left countStep pairs c).
Proof.
  induction pairs as [|pr pairs IH]; intros c Hall Hc; [exact Hc|].
  inversion Hall; subst. cbn [fold_left]. apply IH; auto.
  now apply countStep_sound.
Qed.

Lemma reachable_counts_sound m : reachable m -> countsSound (counts m).
Proof.
  induction 1 as [d m H | xs m Hr IH | rand a b m Hr IH | xs m Hr IH
                 | m m' Hr IH H].
  - destruct (Markov_untrained _ H) as [n ->]. intros p o E. discriminate.
  - destruct (trained_fields xs m) as (_ & _ & _ & _ & _ & _ & Hc & _).
    fold (trained xs m). rewrite Hc.
    apply fold_countStep_sound; [apply contributions_isLookup | exact IH].
  - rewrite generate_state. now destruct (probabilities m).
  - rewrite score_eq. exact IH.
  - rewrite (fromJSON_eq (reachable_wf Hr)) in H. inversion H; subst.
    exact IH.
Qed.

(** X5: in every reachable model, the total [_sum] of each chain entry
    is the sum of its suffix counts, and the property names of an entry
    are distinct. *)
Theorem chain_total_is_sum (m : Model) (p : key) (o : Obj.t num) :
  reachable m -> Obj.get (counts m) p = Some o ->
  Obj.get o "_sum" = Some (Int (suffixSum o)) /\ NoDup (map fst o).
Proof.
  intros Hr Hp. destruct (reachable_counts_sound Hr _ Hp) as (Hnd & _ & Hs).
  now split.
Qed.

Lemma chain_total_is_sum_witness :
  let m := trained ["a"; "b"; "a"; "b"; "a"] (untrained 1) in
  let o := [("_sum", Int 3); ("2", Int 2); ("0", Int 1)] in
  Obj.get o "_sum" = Some (Int (suffixSum o)) /\ NoDup (map fst o).
Proof.
  apply (@chain_total_is_sum
           (trained ["a"; "b"; "a"; "b"; "a"] (untrained 1)) "1").
  - apply reach_train. apply (reach_new (Some 1%Z)). reflexivity.
  - reflexivity.
Defined.

(** X6: in every reachable model every number stored in the Chain
    Counter, suffix count or total, is an integer and at least 1: a
    count of 0 is never stored, and no total is 0 or NaN. *)
Theorem chain_counts_positive (m : Model) (p k : key) (o : Obj.t num)
  (v : num) :
  reachable m -> Obj.get (counts m) p = Some o -> Obj.get o k = Some v ->
  exists z, v = Int z /\ (1 <= z)%Z.
Proof.
  intros Hr Hp Hk. destruct (reachable_counts_sound Hr _ Hp) as (_ & Hv & _).
  apply (Hv k v). now apply get_In.
Qed.

Lemma chain_counts_positive_witness :
  exists z, Int 2 = Int z /\ (1 <= z)%Z.
Proof.
  apply (@chain_counts_positive
           (trained ["a"; "b"; "a"; "b"; "a"] (untrained 1)) "1" "2"
           [("_sum", Int 3); ("2", Int 2); ("0", Int 1)] (Int 2)).
  - apply reach_train. apply (reach_new (Some 1%Z)). reflexivity.
  - reflexivity.
  - reflexivity.
Defined.

(** ** The Probability Index: [updateProbabilities], [genSuffix] *)

Lemma In_keys_get {V : Type} (o : Obj.t V) k :
  In k (map fst o) -> Obj.get o k <> None.
Proof.
  induction o as [|[k0 v0] o IH]; cbn [map fst Obj.get]; [contradiction|].
  destruct (String.eqb_spec k0 k) as [->|Hne]; [discriminate|].
  intros [E|H]; [contradiction | now apply IH].
Qed.

Lemma insertIndex_In n k l x :
  In x (Obj.insertIndex n k l) -> x = (n, k) \/ In x l.
Proof.
  induction l as [|[n' k'] l IH]; cbn [Obj.insertIndex].
  - intros [<-|[]]. now left.
  - destruct (n <? n')%N; cbn [In]; intros [H|H]; auto.
    destruct (IH H); auto.
Qed.

(** [for ... in] visits the properties of the object only. *)
Lemma ownKeys_sound {V : Type} (o : Obj.t V) k :
  In k (Obj.ownKeys o) -> Obj.get o k <> None.
Proof.
  intros H. apply In_keys_get. unfold Obj.ownKeys in H.
  apply in_app_or in H. destruct H as [H|H].
  - apply in_map_iff in H. destruct H as [[n k'] [E H]]. cbn in E. subst k'.
    induction o as [|[k0 v0] o IH]; cbn [Obj.indexKeys] in H; [contradiction|].
    cbn [map fst]. destruct (arrayIndex k0) as [n0|].
    + apply insertIndex_In in H. destruct H as [[= _ ->]|H];
        [now left | right; auto].
    + right. auto.
  - induction o as [|[k0 v0] o IH]; cbn [Obj.nameKeys] in H; [contradiction|].
    cbn [map fst]. destruct (arrayIndex k0).
    + right. auto.
    + destruct H as [->|H]; [now left | right; auto].
Qed.

Lemma rebuild_fold_None c p :
  Obj.get c p = None ->
  forall keys P,
    Obj.get P p = None ->
    Obj.get
      (fold_left
         (fun P pfx =>
            match Obj.get c pfx with
            | Some o => Obj.set P pfx (probsOf o)
            | None => P
            end) keys P) p
    = None.
Proof.
  intros Hp. induction keys as [|k keys IH]; intros P HP; [exact HP|].
  cbn [fold_left]. apply IH. destruct (Obj.get c k) eqn:E; [|exact HP].
  rewrite ObjFacts.get_set_other; [exact HP | congruence].
Qed.

(** X7: a rebuild gives the Probability Index exactly the prefixes of
    the Chain Counter, each with the cumulated list of its entry; that
    list has one pair for every property of the entry (the total
    ["_sum"] included) and for nothing else. *)
Theorem rebuild_entries (c : Obj.t (Obj.t num)) (p : key) :
  Obj.get (rebuild c) p = option_map probsOf (Obj.get c p) /\
  (forall o k, In k (map snd (probsOf o)) <-> Obj.get o k <> None) /\
  (forall o, length (probsOf o) = length (Obj.ownKeys o)).
Proof.
  split; [|split].
  - destruct (Obj.get c p) as [o|] eqn:E; cbn [option_map].
    + now apply get_rebuild.
    + now apply rebuild_fold_None.
  - intros o k. unfold probsOf. rewrite cumulate_keys. split.
    + apply ownKeys_sound.
    + apply ownKeys_complete.
  - intros o. unfold probsOf.
    rewrite <- (cumulate_keys o (Obj.ownKeys o) 0%float) at 2.
    now rewrite length_map.
Qed.

Lemma scan_first_match r probs s :
  scan r probs = Ok s <->
  exists pre upper post,
    probs = pre ++ (upper, s) :: post /\
    Forall (fun e => (fst e <? r)%float = true) pre /\
    (upper <? r)%float = false.
Proof.
  induction probs as [|[u k] probs IH]; cbn [scan].
  - split; [discriminate|]. intros (pre & upper & post & E & _).
    destruct pre; discriminate.
  - destruct (u <? r)%float eqn:Hu.
    + rewrite IH. split.
      * intros (pre & upper & post & -> & Hall & Hup).
        exists ((u, k) :: pre), upper, post. repeat split; auto.
      * intros (pre & upper & post & E & Hall & Hup).
        destruct pre as [|e pre]; cbn in E; inversion E; subst.
        -- congruence.
        -- inversion Hall; subst. exists pre, upper, post. auto.
    + split.
      * intros [= <-]. exists [], u, probs. repeat split; auto.
      * intros (pre & upper & post & E & Hall & Hup).
        destruct pre as [|e pre]; cbn in E; inversion E; subst.
        -- reflexivity.
        -- inversion Hall; subst. cbn in *. congruence.
Qed.

Lemma scan_throw r probs :
  scan r probs = Throw TypeError <->
  Forall (fun e => (fst e <? r)%float = true) probs.
Proof.
  induction probs as [|[u k] probs IH]; cbn [scan].
  - split; [constructor | reflexivity].
  - destruct (u <? r)%float eqn:Hu.
    + rewrite IH. split; [now constructor|]. intros H. now inversion H.
    + split; [discriminate|]. intros H. inversion H; subst. cbn in *.
      congruence.
Qed.

(** X8: the weighted choice of [genSuffix] is "first match wins": it
    returns the suffix [s] exactly when the state has a cumulative list
    in which [s] is paired with the first mass that the draw [r] does
    not exceed; if the state has no list, or the draw exceeds every
    mass, it raises a TypeError. *)
Theorem genSuffix_first_match (pfx : key) (r : float) (m : Model)
  (s : key) :
  (genSuffix pfx r m = Ok s <->
   exists P pre upper post,
     probabilities m = Some P /\
     Obj.get P pfx = Some (pre ++ (upper, s) :: post) /\
     Forall (fun e => (fst e <? r)%float = true) pre /\
     (upper <? r)%float = false) /\
  (genSuffix pfx r m = Throw TypeError <->
   forall P probs,
     probabilities m = Some P -> Obj.get P pfx = Some probs ->
     Forall (fun e => (fst e <? r)%float = true) probs).
Proof.
  unfold genSuffix. split.
  - destruct (probabilities m) as [P|] eqn:EP.
    + destruct (Obj.get P pfx) as [probs|] eqn:EG.
      * rewrite scan_first_match. split.
        -- intros (pre & upper & post & -> & H1 & H2).
           exists P, pre, upper, post. auto.
        -- intros (P' & pre & upper & post & [= <-] & E & H1 & H2).
           rewrite EG in E. inversion E; subst.
           exists pre, upper, post. auto.
      * split; [discriminate|].
        intros (P' & pre & upper & post & [= <-] & E & _). congruence.
    + split; [discriminate|].
      intros (P' & pre & upper & post & E & _). discriminate.
  - destruct (probabilities m) as [P|] eqn:EP;
      [|split; [intros _ P probs E; discriminate | reflexivity]].
    destruct (Obj.get P pfx) as [probs|] eqn:EG;
      [|split; [intros _ P' probs [= <-] E; congruence | reflexivity]].
    rewrite scan_throw. split.
    + intros H P' probs' [= <-] E. rewrite EG in E. now inversion E; subst.
    + intros H. exact (H P probs eq_refl EG).
Qed.

(** X9: the cache discipline of the Probability Index.  In every
    reachable model it is absent or it is the rebuild of the current
    Chain Counter; [train] leaves it absent; [generate] leaves it equal
    to the rebuild of the Chain Counter, which it does not change. *)
Theorem probability_index_consistent (m : Model) :
  reachable m ->
  (probabilities m = None \/ probabilities m = Some (rebuild (counts m))) /\
  (forall xs, probabilities (trained xs m) = None) /\
  (forall rand minLength maxLength,
     counts (snd (generate rand minLength maxLength m)) = counts m /\
     probabilities (snd (generate rand minLength maxLength m))
     = Some (rebuild (counts m))).
Proof.
  intros Hr. pose proof (wf_index (reachable_wf Hr)) as Hix.
  split; [exact Hix | split].
  - intros xs. now rewrite trained_eq.
  - intros rand a b. rewrite generate_state.
    destruct Hix as [E|E]; rewrite E; split; try reflexivity; exact E.
Qed.

Lemma probability_index_consistent_witness :
  let m := snd (generate (fun _ => 0.5%float) 1 None
                  (trained ["a"] (untrained 1))) in
  (probabilities m = None \/ probabilities m = Some (rebuild (counts m))) /\
  (forall xs, probabilities (trained xs m) = None) /\
  (forall rand minLength maxLength,
     counts (snd (generate rand minLength maxLength m)) = counts m /\
     probabilities (snd (generate rand minLength maxLength m))
     = Some (rebuild (counts m))).
Proof.
  apply probability_index_consistent.
  apply reach_generate. apply reach_train.
  apply (reach_new (Some 1%Z)). reflexivity.
Defined.

(** ** [score] and [train] as a user sees them *)

(** X10: [score] returns the sum, over the windows of the padded input,
    of [count / total] for the pairs the Chain Counter holds with a
    count that is not 0, divided by the length of the unpadded input;
    the sum and that length are what it leaves in [_score] and
    [_scoreFactor]. *)
Theorem score_formula (xs : list string) (m : Model) :
  fst (score xs m) =
    (scoreSum (counts m) (contributions m xs) 0
     / Z2float (Z.of_nat (length xs)))%float /\
  _score (snd (score xs m))
    = Some (scoreSum (counts m) (contributions m xs) 0%float) /\
  _scoreFactor (snd (score xs m)) = Some (length xs).
Proof. rewrite score_eq. repeat split. Qed.

(** X11: a score is reproducible: it depends on no earlier call of
    [score] or [generate], although the one writes scratch fields and
    the other the Probability Index. *)
Theorem score_reproducible (xs ys : list string) (rand : nat -> float)
  (minLength : Z) (maxLength : option Z) (m : Model) :
  fst (score xs (snd (score ys m))) = fst (score xs m) /\
  fst (score xs (snd (generate rand minLength maxLength m)))
  = fst (score xs m).
Proof.
  split; apply score_sameCore.
  - rewrite score_eq. repeat split.
  - rewrite generate_state. destruct (probabilities m); repeat split.
Qed.

(** X12: [train] changes the symbol table, the Chain Counter and the
    Probability Index only: depth, separator, paddings and the scratch
    fields of [score] are as before, whatever the input. *)
Theorem train_frame (xs : list string) (m : Model) :
  depth (trained xs m) = depth m /\
  separator (trained xs m) = separator m /\
  prePadding (trained xs m) = prePadding m /\
  postPadding (trained xs m) = postPadding m /\
  _score (trained xs m) = _score m /\
  _scoreFactor (trained xs m) = _scoreFactor m.
Proof.
  rewrite trained_eq.
  destruct (interned_fields xs m) as (Hd & _ & Hs & Hpre & Hpost & _ & Hsc & Hf).
  cbv zeta in *. cbn. repeat split; assumption.
Qed.

(** ** [generate]: lengths and symbols *)

Lemma generateLoop_bound rand m minLength maxLength :
  forall fuel string pfx sfx zCount k,
    (Z.of_nat (length string) <= Z.max 0 (Z.max minLength maxLength))%Z ->
    (0 <= zCount <= 15)%Z ->
    Z.to_nat (Z.max 0 (Z.max minLength maxLength) - Z.of_nat (length string))
      + Z.to_nat (16 - zCount) < fuel ->
    match generateLoop rand fuel m minLength maxLength string pfx sfx zCount k with
    | Ok (out, z) =>
        (Z.of_nat (length out) <= Z.max 0 (Z.max minLength maxLength))%Z /\
        ((Z.of_nat (length out) < minLength)%Z -> (15 < z)%Z)
    | Throw e => e = TypeError
    | Diverge => False
    end.
Proof.
  induction fuel as [|fuel IH];
    intros string pfx sfx zCount k Hlen Hz Hfuel; [lia|].
  rewrite generateLoop_step.
  destruct (Z.ltb_spec (Z.of_nat (length string)) maxLength) as [Hlt|Hge];
    destruct (Z.ltb_spec (Z.of_nat (length string)) minLength) as [Hlt'|Hge'];
    destruct (neZero sfx); cbn [andb orb]; try (split; lia).
  - destruct (genSuffix_cases (join (separator m) (tl (pfx ++ [Str sfx])))
                (rand k) m) as [[s ->]| ->]; [|reflexivity].
    apply IH; rewrite ?length_app; cbn [length]; lia.
  - destruct (Z.ltb_spec 15 (zCount + 1)); [split; lia|].
    destruct (genSuffix_cases (join (separator m) pfx) (rand k) m)
      as [[s ->]| ->]; [|reflexivity].
    apply IH; lia.
  - destruct (genSuffix_cases (join (separator m) (tl (pfx ++ [Str sfx])))
                (rand k) m) as [[s ->]| ->]; [|reflexivity].
    apply IH; rewrite ?length_app; cbn [length]; lia.
  - destruct (genSuffix_cases (join (separator m) (tl (pfx ++ [Str sfx])))
                (rand k) m) as [[s ->]| ->]; [|reflexivity].
    apply IH; rewrite ?length_app; cbn [length]; lia.
  - destruct (Z.ltb_spec 15 (zCount + 1)); [split; lia|].
    destruct (genSuffix_cases (join (separator m) pfx) (rand k) m)
      as [[s ->]| ->]; [|reflexivity].
    apply IH; lia.
Qed.

(** X13: [generate] always ends, whatever its arguments: it raises a
    TypeError or returns a sequence.  The sequence has at most
    [max(minLength, maxLength)] symbols, where an omitted [maxLength]
    and a [maxLength] of 0 both stand for [minLength]: when [minLength]
    is the larger, the output may be longer than [maxLength].  It is
    shorter than [minLength] only after more than 15 boundary draws. *)
Theorem generate_terminates (rand : nat -> float) (m : Model)
  (minLength : Z) (maxLength : option Z) :
  match generateExit rand minLength maxLength m with
  | Ok (out, zCount) =>
      fst (generate rand minLength maxLength m) = Ok out /\
      (Z.of_nat (length out)
       <= Z.max 0 (Z.max minLength (maxLengthOr minLength maxLength)))%Z /\
      ((Z.of_nat (length out) < minLength)%Z -> (15 < zCount)%Z)
  | Throw e =>
      e = TypeError /\
      fst (generate rand minLength maxLength m) = Throw TypeError
  | Diverge => False
  end.
Proof.
  unfold generate. cbn [fst]. unfold generateExit.
  destruct (genSuffix_cases
              (join (separator (refreshed m))
                 (fst (map_ symbolToIndex (prePadding (refreshed m))
                         (refreshed m))))
              (rand 0) (refreshed m)) as [[s ->]| ->]; [|now split].
  pose proof (@generateLoop_bound rand (refreshed m) minLength
                (maxLengthOr minLength maxLength)
                (generateFuel minLength (maxLengthOr minLength maxLength))
                [] (fst (map_ symbolToIndex (prePadding (refreshed m))
                           (refreshed m))) s 0%Z 1) as H.
  assert (Hfuel : Z.to_nat (Z.max 0 (Z.max minLength
                              (maxLengthOr minLength maxLength)) - 0)
                  + Z.to_nat (16 - 0)
                  < generateFuel minLength (maxLengthOr minLength maxLength))
    by (unfold generateFuel; lia).
  cbn [length] in H. change (Z.of_nat 0) with 0%Z in H.
  specialize (H ltac:(lia) ltac:(lia) Hfuel).
  destruct (generateLoop _ _ _ _ _ _ _ _ _ _) as [[out z]|e|].
  - destruct H as [H1 H2]. repeat split; assumption.
  - split; [exact H | now rewrite H].
  - exact H.
Qed.

(** The bound of X13 is reached: on a model trained on [a, a, a, a],
    [generate(3, 1)] returns three symbols. *)
Lemma generate_exceeds_maxLength :
  fst (generate (fun _ => 0.5%float) 3 (Some 1%Z)
         (trained ["a"; "a"; "a"; "a"] (untrained 1)))
  = Ok [Some "a"; Some "a"; Some "a"].
Proof. vm_compute. reflexivity. Qed.

Lemma neZero_arrayIndex sfx n :
  neZero sfx = true -> arrayIndex sfx = Some n -> n <> 0%N.
Proof.
  unfold neZero, toNumber, arrayIndex.
  destruct (NilEmpty.uint_of_string sfx) as [d|]; [|discriminate].
  destruct (_ && _); [|discriminate].
  intros H [= <-]. destruct (N.eqb_spec (N.of_uint d) 0); [discriminate|].
  assumption.
Qed.

(** A symbol pushed by [generate] is an interned symbol other than the
    boundary symbol, or [undefined]. *)
Lemma symbolAt_emitted m sfx s :
  wf m -> neZero sfx = true -> symbolAt m sfx = Some s ->
  In s (symbols m) /\ s <> "".
Proof.
  intros Hm Hnz. unfold symbolAt.
  destruct (arrayIndex sfx) as [n|] eqn:E; [|discriminate].
  intros Hnth. split; [eapply nth_error_In; eauto|].
  intros ->. pose proof (neZero_arrayIndex _ Hnz E) as Hn.
  destruct (wf_boundary Hm) as [rest Hsym]. pose proof (wf_distinct Hm) as Hnd.
  rewrite Hsym in Hnth, Hnd.
  destruct (N.to_nat n) as [|j] eqn:Ej; [lia|].
  cbn in Hnth. apply nth_error_In in Hnth. now inversion Hnd.
Qed.

Lemma generateLoop_emits rand m minLength maxLength (Q : option string -> Prop) :
  (forall sfx, neZero sfx = true -> Q (symbolAt m sfx)) ->
  forall fuel string pfx sfx zCount k out z,
    Forall Q string ->
    generateLoop rand fuel m minLength maxLength string pfx sfx zCount k
    = Ok (out, z) ->
    Forall Q out.
Proof.
  intros HQ. induction fuel as [|fuel IH];
    intros string pfx sfx zCount k out z Hs; [discriminate|].
  rewrite generateLoop_step.
  destruct (_ || _); [|intros [= <- <-]; exact Hs].
  destruct (neZero sfx) eqn:Hnz.
  - destruct (genSuffix _ _ _) as [s| |]; try discriminate.
    apply IH. apply Forall_app. split; [exact Hs|].
    constructor; [now apply HQ | constructor].
  - destruct (15 <? zCount + 1)%Z; [intros [= <- <-]; exact Hs|].
    destruct (genSuffix _ _ _) as [s| |]; try discriminate.
    now apply IH.
Qed.

(** X14: [generate] never emits the boundary symbol: on a reachable
    model every defined element of its output is an interned symbol
    other than the empty string. *)
Theorem generate_emits_symbols (rand : nat -> float) (m : Model)
  (minLength : Z) (maxLength : option Z) (out : list (option string)) :
  reachable m ->
  fst (generate rand minLength maxLength m) = Ok out ->
  forall s, In (Some s) out -> In s (symbols m) /\ s <> "".
Proof.
  intros Hr Hgen. pose proof (reachable_wf Hr) as Hm.
  assert (Hm' : wf (refreshed m)).
  { apply reachable_wf.
    apply (reach_generate rand minLength maxLength) in Hr. exact Hr. }
  assert (Hsym : symbols (refreshed m) = symbols m)
    by (unfold refreshed; now destruct (probabilities m)).
  unfold generate in Hgen. cbn [fst] in Hgen. unfold generateExit in Hgen.
  destruct (genSuffix _ _ _) as [sfx| |]; try discriminate.
  destruct (generateLoop _ _ _ _ _ _ _ _ _ _) as [[out' z]| |] eqn:E;
    try discriminate.
  inversion Hgen; subst out'.
  assert (Hall : Forall (fun e => match e with
                                  | Some s => In s (symbols m) /\ s <> ""
                                  | None => True
                                  end) out).
  { eapply generateLoop_emits; [| |exact E]; [|constructor].
    intros sfx' Hnz. destruct (symbolAt (refreshed m) sfx') as [s|] eqn:Es;
      [|exact I].
    rewrite <- Hsym. now apply (symbolAt_emitted sfx' Hm' Hnz). }
  intros s Hin. rewrite Forall_forall in Hall. exact (Hall _ Hin).
Qed.

Lemma generate_emits_symbols_witness :
  In "y" (symbols (trained ["x"; "y"; "z"] (untrained 2))) /\ "y" <> "".
Proof.
  apply (@generate_emits_symbols (fun _ => 0.5%float)
           (trained ["x"; "y"; "z"] (untrained 2)) 1 (Some 10%Z)
           [Some "x"; Some "y"; Some "z"]).
  - apply reach_train. apply (reach_new (Some 2%Z)). reflexivity.
  - vm_compute. reflexivity.
  - right. left. reflexivity.
Defined.

(** ** Snapshots: [toJSON] and [fromJSON] *)

(** X15: [fromJSON] on a snapshot whose depth is an integer and whose
    symbols are strings.  A depth that is negative or not below 2^32
    raises a RangeError.  When a model is returned, a depth of 0 has
    given depth 1, and the model has the boundary symbol at index 0
    followed by the other symbols of the list that [Object.prototype]
    does not name, each once, in first-seen order, with a symbol map
    that agrees (so a list with duplicates or inherited names, or one
    that does not start with the boundary symbol, shifts the indexes the
    counts refer to); the counts are taken as they are and the
    Probability Index is absent. *)
Theorem fromJSON_builds (obj : Snapshot) :
  ((json_depth obj < 0)%Z \/ (4294967296 <= json_depth obj)%Z ->
   fromJSON obj = Throw RangeError) /\
  (forall m, fromJSON obj = Ok m ->
     depth m = Z.to_nat (if (json_depth obj =? 0)%Z then 1 else json_depth obj)
     /\ symbols m = "" :: newSymbols [""] (filter ownName (json_symbols obj))
     /\ symbolMap m = tableFrom 0 (symbols m)
     /\ NoDup (symbols m)
     /\ counts m = json_counts obj
     /\ probabilities m = None).
Proof.
  split.
  - intros Hd. unfold fromJSON, Markov, Array_.
    destruct (Z.eqb_spec (json_depth obj) 0); [lia|].
    destruct (Z.leb_spec 0 (json_depth obj));
      destruct (Z.ltb_spec (json_depth obj) 4294967296);
      cbn [andb]; try reflexivity; lia.
  - intros m H. unfold fromJSON in H.
    destruct (Markov (Some (json_depth obj))) as [M0| |] eqn:E;
      try discriminate.
    inversion H; subst m. clear H.
    pose proof (Markov_wf _ E) as Hw.
    pose proof (interned_wf (json_symbols obj) Hw) as Hi.
    fold (interned (json_symbols obj) M0).
    destruct (interned_fields (json_symbols obj) M0)
      as (Hd & _ & _ & _ & _ & Hp & _). cbv zeta in Hd, Hp.
    destruct (interned_newSymbols (json_symbols obj) M0 (wf_symbolMap Hw))
      as [Hs Hm].
    destruct (Markov_Ok _ E) as (z & Hz & -> & _ & Hne & H0).
    cbn [symbols set_counts depth symbolMap counts probabilities].
    repeat split.
    + rewrite Hd. cbn [depth untrained].
      destruct (Z.eqb_spec (json_depth obj) 0) as [e|e];
        [now rewrite (H0 e) | now rewrite (Hne e)].
    + rewrite Hs. reflexivity.
    + exact Hm.
    + exact (wf_distinct Hi).
    + rewrite Hp. reflexivity.
Qed.

Lemma fromJSON_builds_witness :
  fromJSON {| json_depth := (-1)%Z; json_symbols := [""; "a"];
              json_counts := Obj.empty |} = Throw RangeError /\
  (let obj := {| json_depth := 1%Z;
                 json_symbols := ["a"; "valueOf"; "a"; "b"];
                 json_counts := Obj.empty |} in
   let m := set_counts Obj.empty
              (interned ["a"; "valueOf"; "a"; "b"] (untrained 1)) in
   depth m = Z.to_nat (if (json_depth obj =? 0)%Z then 1 else json_depth obj)
   /\ symbols m = "" :: newSymbols [""] (filter ownName (json_symbols obj))
   /\ symbolMap m = tableFrom 0 (symbols m)
   /\ NoDup (symbols m)
   /\ counts m = json_counts obj
   /\ probabilities m = None).
Proof.
  split.
  - apply (proj1 (fromJSON_builds _)). left. cbn. lia.
  - apply (proj2 (fromJSON_builds
                    {| json_depth := 1%Z;
                       json_symbols := ["a"; "valueOf"; "a"; "b"];
                       json_counts := Obj.empty |})).
    reflexivity.
Defined.

(** X16: when [fromJSON] returns a model for a snapshot with a depth
    other than 0 and a list of distinct string symbols that starts with
    the boundary symbol and holds no name of [Object.prototype], the
    snapshot is restored exactly: [toJSON] of the model gives it
    back. *)
Theorem snapshot_roundtrip (obj : Snapshot) (rest : list string)
  (m : Model) :
  fromJSON obj = Ok m ->
  json_depth obj <> 0%Z ->
  json_symbols obj = "" :: rest ->
  NoDup (json_symbols obj) ->
  forallb ownName (json_symbols obj) = true ->
  toJSON m = obj.
Proof.
  destruct obj as [d syms c]. cbn [json_depth json_symbols].
  intros H Hd -> Hnd Hown. unfold fromJSON in H.
  cbn [json_depth json_symbols json_counts] in H.
  destruct (Markov (Some d)) as [M0| |] eqn:E; try discriminate.
  destruct (Markov_Ok _ E) as (z & Hz & -> & _ & Hne & _).
  rewrite (Hne Hd) in *. inversion H; subst m. clear H.
  fold (interned rest (untrained (Z.to_nat d))).
  assert (Ho : Forall (fun s => Obj.get objectPrototype s = None) rest).
  { rewrite forallb_forall in Hown. apply Forall_forall. intros x Hx.
    apply ownName_true, Hown. now right. }
  destruct (@interned_fresh rest (untrained (Z.to_nat d)))
    as [Hs _]; [reflexivity | exact Hnd | exact Ho |].
  destruct (interned_fields rest (untrained (Z.to_nat d)))
    as (Hdep & _). cbv zeta in Hdep.
  unfold toJSON. cbn [depth symbols counts set_counts].
  rewrite Hs, Hdep. cbn [untrained depth symbols app].
  rewrite Z2Nat.id by lia. reflexivity.
Qed.

Lemma snapshot_roundtrip_witness :
  toJSON (set_counts [("0,0", [("_sum", Int 1); ("1", Int 1)])]
            (interned [""; "b"; "a"] (untrained 2)))
  = {| json_depth := 2%Z; json_symbols := [""; "b"; "a"];
       json_counts := [("0,0", [("_sum", Int 1); ("1", Int 1)])] |}.
Proof.
  apply (@snapshot_roundtrip
           {| json_depth := 2%Z; json_symbols := [""; "b"; "a"];
              json_counts := [("0,0", [("_sum", Int 1); ("1", Int 1)])] |}
           ["b"; "a"]).
  - reflexivity.
  - cbn. discriminate.
  - reflexivity.
  - cbn. repeat constructor; cbn; intuition discriminate.
  - reflexivity.
Defined.

(** ** Keys: [prefix] and the property names of [countPair] *)

Lemma string_of_uint_noComma d : noComma (NilEmpty.string_of_uint d).
Proof. induction d; cbn; auto; split; auto; discriminate. Qed.

Lemma string_of_uint_inj d d' :
  NilEmpty.string_of_uint d = NilEmpty.string_of_uint d' -> d = d'.
Proof.
  intros H. pose proof (NilEmpty.usu d) as H1.
  rewrite H, NilEmpty.usu in H1. congruence.
Qed.


Lemma render_nonempty n : render n <> "".
Proof.
  unfold render. intros H.
  assert (Hn : Nat.to_uint n = Decimal.Nil).
  { apply string_of_uint_inj. exact H. }
  pose proof (DecimalNat.Unsigned.to_of (Nat.to_uint n)) as Hto.
  rewrite DecimalNat.Unsigned.of_to, Hn in Hto. discriminate.
Qed.



Lemma split_noComma s : noComma s -> split "," s = [s].
Proof.
  induction s as [|a s IH]; cbn [noComma split]; [reflexivity|].
  intros [Ha Hs]. destruct (Ascii.eqb_spec a ","); [contradiction|].
  now rewrite IH.
Qed.

Lemma split_append s t :
  noComma s -> split "," (s ++ String "," t) = s :: split "," t.
Proof.
  induction s as [|a s IH]; cbn [noComma append split].
  - intros _. reflexivity.
  - intros [Ha Hs]. destruct (Ascii.eqb_spec a ","); [contradiction|].
    now rewrite IH.
Qed.

(** Splitting a joined key at the separator gives its components
    back. *)
Lemma split_concat l :
  l <> [] -> Forall noComma l -> split "," (String.concat "," l) = l.
Proof.
  induction l as [|a l IH]; [congruence|]. intros _ Hall.
  inversion Hall as [|? ? Ha Hl]; subst.
  destruct l as [|b l].
  - cbn [String.concat]. now apply split_noComma.
  - change (String.concat "," (a :: b :: l))
      with (a ++ String "," (String.concat "," (b :: l)))%string.
    rewrite split_append by assumption. f_equal. apply IH; [discriminate|].
    exact Hl.
Qed.






(** ** The chains [train] records are closed under succession *)

Lemma firstn_snoc {A : Type} (l : list A) (def : A) : forall n,
  n < length l -> firstn (S n) l = firstn n l ++ [nth n l def].
Proof.
  induction l as [|a l IH]; intros n Hn; cbn [length] in Hn; [lia|].
  destruct n as [|n]; [reflexivity|].
  cbn [firstn nth app]. f_equal.
  change (firstn (S n) l = firstn n l ++ [nth n l def]).
  apply IH. lia.
Qed.

Lemma slice_succ {A : Type} (l : list A) (def : A) i d :
  i + d < length l ->
  slice l (S i) (S i + d) = tl (slice l i (i + d) ++ [nth (i + d) l def]).
Proof.
  intros H. unfold slice.
  replace (S i + d - S i) with d by lia. replace (i + d - i) with d by lia.
  assert (Hn : nth (i + d) l def = nth d (skipn i l) def).
  { rewrite <- (firstn_skipn i l) at 1.
    rewrite app_nth2; rewrite length_firstn; [|lia].
    f_equal. lia. }
  rewrite Hn.
  assert (Hl : d < length (skipn i l)) by (rewrite length_skipn; lia).
  rewrite <- (firstn_snoc (skipn i l) def Hl).
  destruct (skipn i l) as [|a r] eqn:E; [cbn in Hl; lia|].
  assert (Hr : skipn (S i) l = r).
  { replace (S i) with (1 + i) by lia. rewrite <- skipn_skipn, E.
    reflexivity. }
  rewrite Hr. reflexivity.
Qed.

Lemma slice_map {A B : Type} (f : A -> B) l i j :
  slice (map f l) i j = map f (slice l i j).
Proof. unfold slice. now rewrite skipn_map, firstn_map. Qed.

Lemma slice_length {A : Type} (l : list A) i d :
  i + d <= length l -> length (slice l i (i + d)) = d.
Proof.
  intros H. unfold slice. rewrite length_firstn, length_skipn. lia.
Qed.

Lemma pairsFrom_In d sep xs pr : forall n i,
  In pr (pairsFrom d sep xs n i) <->
  exists j, j < n /\
    pr = (join sep (slice xs (i + j) (i + j + d)),
          nth (i + j + d) xs Undefined).
Proof.
  induction n as [|n IH]; intros i; cbn [pairsFrom In].
  - split; [contradiction|]. intros (j & Hj & _). lia.
  - rewrite IH. split.
    + intros [<-|(j & Hj & ->)].
      * exists 0. rewrite Nat.add_0_r. split; [lia | reflexivity].
      * exists (S j). replace (i + S j) with (S i + j) by lia.
        split; [lia | reflexivity].
    + intros ([|j] & Hj & ->).
      * left. now rewrite Nat.add_0_r.
      * right. exists j. replace (i + S j) with (S i + j) by lia.
        split; [lia | reflexivity].
Qed.

Lemma Forall_slice {A : Type} (P : A -> Prop) (l : list A) i j :
  Forall P l -> Forall P (slice l i j).
Proof.
  intros H. apply Forall_forall. intros x Hx. unfold slice in Hx.
  rewrite Forall_forall in H. apply H.
  rewrite <- (firstn_skipn i l). apply in_or_app. right.
  rewrite <- (firstn_skipn (j - i) (skipn i l)). apply in_or_app. now left.
Qed.

Lemma map_tail {A B : Type} (f : A -> B) l : map f (tl l) = tl (map f l).
Proof. now destruct l. Qed.

(** Two keys of comma-free components are the same key only if they
    have the same components. *)
Lemma concat_inj l1 l2 :
  l1 <> [] -> l2 <> [] -> Forall noComma l1 -> Forall noComma l2 ->
  String.concat "," l1 = String.concat "," l2 -> l1 = l2.
Proof.
  intros N1 N2 H1 H2 E.
  rewrite <- (split_concat N1 H1), <- (split_concat N2 H2).
  now rewrite E.
Qed.

Lemma inheritedString_In s :
  inheritedString s = true -> In s (map snd objectPrototype).
Proof.
  unfold inheritedString. rewrite existsb_exists.
  intros ([k v] & Hin & E). apply String.eqb_eq in E. cbn [snd] in E.
  subst. now apply (in_map snd) in Hin.
Qed.

(** The string of an inherited value is not empty, holds no comma, is
    neither ["undefined"] nor a number. *)
Lemma inheritedString_shape s :
  inheritedString s = true ->
  noComma s /\ s <> "" /\ s <> "undefined" /\ neZero s = true.
Proof.
  intros H. apply inheritedString_In in H. revert s H.
  apply Forall_forall. unfold objectPrototype. cbn [map snd].
  repeat (apply Forall_cons;
          [split; [cbn [noComma]; repeat split; discriminate|];
           split; [discriminate|]; split; [discriminate | reflexivity]|]).
  apply Forall_nil.
Qed.

(** The name of an index or of an inherited value: [join] and a
    property access render it alike; it is not empty, holds no comma
    and is not ["undefined"]. *)
Lemma isBound_key v :
  isBound v ->
  joinElem v = toKey v /\ noComma (toKey v) /\ toKey v <> ""
  /\ toKey v <> "undefined".
Proof.
  destruct v as [|n|s]; cbn [isBound joinElem toKey]; intros H.
  - contradiction.
  - split; [reflexivity|]. split; [apply string_of_uint_noComma|].
    split; [apply render_nonempty|].
    unfold render. destruct (Nat.to_uint n); discriminate.
  - destruct (inheritedString_shape _ H) as (H1 & H2 & H3 & _). auto.
Qed.

Lemma joinElem_lookup_noComma v : isLookup v -> noComma (joinElem v).
Proof.
  destruct v as [|n|s]; cbn [isLookup joinElem]; intros H.
  - exact I.
  - apply string_of_uint_noComma.
  - now destruct (inheritedString_shape _ H).
Qed.

(** After [train], every symbol of the input has an index or an
    inherited value. *)
Lemma trained_bound xs m :
  wf m -> Forall isBound (indexesOf (trained xs m) xs).
Proof.
  intros Hm.
  destruct (trained_fields xs m) as (_ & _ & _ & _ & _ & Hmap & _).
  unfold indexesOf. apply Forall_map, Forall_forall. intros x Hx.
  rewrite Hmap. apply isBound_lookup. now apply interned_bound.
Qed.

Lemma recorded_countOf c p s :
  countsSound c -> (recorded c p s <-> (1 <= countOf c p s)%Z).
Proof.
  intros Hc. unfold recorded, countOf. split.
  - intros (o & Hp & Hs). rewrite Hp.
    destruct (Obj.get o s) as [v|] eqn:E; [|congruence].
    destruct (Hc _ _ Hp) as (_ & Hv & _).
    destruct (Hv _ _ (get_In _ _ E)) as [z [-> Hz]]. exact Hz.
  - destruct (Obj.get c p) as [o|]; [|lia].
    intros H. exists o. split; [reflexivity|].
    destruct (Obj.get o s) as [[z|]|]; try lia. discriminate.
Qed.

Lemma known_countOf c p :
  countsSound c -> (Obj.get c p <> None <-> (1 <= countOf c p "_sum")%Z).
Proof.
  intros Hc. split.
  - intros H. apply (recorded_countOf p "_sum" Hc).
    destruct (Obj.get c p) as [o|] eqn:E; [|congruence].
    exists o. split; [exact E|].
    destruct (Hc _ _ E) as (_ & _ & ->). discriminate.
  - intros H. apply (recorded_countOf p "_sum" Hc) in H.
    destruct H as (o & -> & _). discriminate.
Qed.

Lemma occ_positive p s pairs :
  (1 <= occ p s pairs)%Z <->
  exists v, In (p, v) pairs /\ toKey v = s.
Proof.
  unfold occ. split.
  - intros H.
    destruct (filter _ pairs) as [|[p' v] l] eqn:E; [cbn in H; lia|].
    assert (Hin : In (p', v) (filter
              (fun pr => String.eqb (fst pr) p
                         && String.eqb (toKey (snd pr)) s) pairs))
      by (rewrite E; now left).
    apply filter_In in Hin. destruct Hin as [Hin Hb]. cbn in Hb.
    apply andb_true_iff in Hb. destruct Hb as [H1 H2].
    apply String.eqb_eq in H1, H2. subst. eauto.
  - intros (v & Hin & <-).
    assert (Hf : In (p, v) (filter
              (fun pr => String.eqb (fst pr) p
                         && String.eqb (toKey (snd pr)) (toKey v)) pairs)).
    { apply filter_In. split; [exact Hin|]. cbn.
      now rewrite !String.eqb_refl. }
    destruct (filter _ pairs); [contradiction | cbn [length]; lia].
Qed.

Lemma total_positive p pairs :
  (1 <= total p pairs)%Z <-> exists v, In (p, v) pairs.
Proof.
  unfold total. split.
  - intros H.
    destruct (filter _ pairs) as [|[p' v] l] eqn:E; [cbn in H; lia|].
    assert (Hin : In (p', v) (filter
              (fun pr => String.eqb (fst pr) p) pairs))
      by (rewrite E; now left).
    apply filter_In in Hin. destruct Hin as [Hin Hb]. cbn in Hb.
    apply String.eqb_eq in Hb. subst. eauto.
  - intros (v & Hin).
    assert (Hf : In (p, v) (filter
              (fun pr => String.eqb (fst pr) p) pairs)).
    { apply filter_In. split; [exact Hin|]. cbn. apply String.eqb_refl. }
    destruct (filter _ pairs); [contradiction | cbn [length]; lia].
Qed.

(** What a fold of [countStep] records: what was recorded, and the
    pairs counted. *)
Lemma recorded_fold c pairs p s :
  countsSound c -> Forall (fun pr => isLookup (snd pr)) pairs ->
  s <> "_sum" ->
  (recorded (fold_left countStep pairs c) p s <->
   recorded c p s \/ exists v, In (p, v) pairs /\ toKey v = s).
Proof.
  intros Hc Hall Hs.
  rewrite (recorded_countOf p s (fold_countStep_sound Hall Hc)).
  rewrite (recorded_countOf p s Hc), <- occ_positive.
  rewrite countOf_fold by assumption.
  pose proof (occ_nonneg p s pairs).
  assert (0 <= countOf c p s)%Z.
  { unfold countOf. destruct (Obj.get c p) as [o|] eqn:E; [|lia].
    destruct (Obj.get o s) as [[z|]|] eqn:E'; try lia.
    destruct (Hc _ _ E) as (_ & Hv & _).
    destruct (Hv _ _ (get_In _ _ E')) as [z' [[= <-] Hz]]. lia. }
  lia.
Qed.

Lemma known_fold c pairs p :
  countsSound c -> Forall (fun pr => isLookup (snd pr)) pairs ->
  (Obj.get (fold_left countStep pairs c) p <> None <->
   Obj.get c p <> None \/ exists v, In (p, v) pairs).
Proof.
  intros Hc Hall.
  rewrite (known_countOf p (fold_countStep_sound Hall Hc)).
  rewrite (known_countOf p Hc), <- total_positive.
  rewrite countOf_fold_sum; auto.
  2:{ intros q o E. destruct (Hc _ _ E) as (_ & _ & ->). eauto. }
  pose proof (total_nonneg p pairs).
  assert (0 <= countOf c p "_sum")%Z.
  { unfold countOf. destruct (Obj.get c p) as [o|] eqn:E; [|lia].
    destruct (Hc _ _ E) as (_ & Hv & Hsum). rewrite Hsum.
    destruct (Hv _ _ (get_In _ _ Hsum)) as [z' [[= <-] Hz]]. lia. }
  lia.
Qed.

(** The pairs one call of [train] counts are the windows of one
    sequence of indexes and inherited values that ends with the
    boundary index. *)
Lemma trained_pairs xs m :
  wf m ->
  exists idx,
    length idx = depth m + length xs + 1 /\
    Forall isBound idx /\
    nth (depth m + length xs) idx Undefined = Num 0 /\
    contributions (trained xs m) xs =
    pairsFrom (depth m) "," idx (S (length xs)) 0.
Proof.
  intros Hm. pose proof (trained_wf xs Hm) as Ht.
  destruct (trained_fields xs m) as (Hd & _).
  exists (repeat (Num 0) (depth m) ++ indexesOf (trained xs m) xs ++ [Num 0]).
  split; [|split; [|split]].
  - rewrite !length_app, repeat_length, indexesOf_length. cbn [length]. lia.
  - apply Forall_app. split.
    + apply Forall_forall. intros v Hv. apply repeat_spec in Hv.
      subst. exact I.
    + apply Forall_app. split; [now apply trained_bound|].
      repeat constructor.
  - rewrite app_assoc, app_nth2;
      rewrite length_app, repeat_length, indexesOf_length; [|lia].
    replace (depth m + length xs - (depth m + length xs)) with 0 by lia.
    reflexivity.
  - now rewrite (contributions_wf xs Ht), (wf_separator Ht), Hd.
Qed.

Lemma trained_successorClosed xs m :
  wf m -> countsSound (counts m) ->
  successorClosed (depth m) (counts m) ->
  successorClosed (depth m) (counts (trained xs m)).
Proof.
  intros Hm Hc Hcl ts t Hlen Hnc Hnz Hs Hrec.
  destruct (trained_fields xs m) as (_ & _ & _ & _ & _ & _ & Hcounts & _).
  destruct (trained_pairs xs Hm) as (idx & Hl & Hb & Hlast & Hpairs).
  assert (Hall : Forall (fun pr => isLookup (snd pr))
                   (contributions (trained xs m) xs))
    by apply contributions_isLookup.
  rewrite Hcounts in Hrec |- *.
  apply (known_fold _ Hc Hall).
  apply (recorded_fold _ Hc Hall Hs) in Hrec.
  destruct Hrec as [Hrec|(v & Hin & Hv)]; [left; now apply Hcl|].
  right. rewrite Hpairs in Hin |- *.
  apply pairsFrom_In in Hin. destruct Hin as (j & Hj & E).
  cbn [Nat.add] in E. inversion E as [[Hp Hval]]. clear E.
  destruct (wf_depth Hm) as [Hd1 _].
  assert (Hsl : Forall isBound (slice idx j (j + depth m)))
    by now apply Forall_slice.
  assert (Hts : ts = map joinElem (slice idx j (j + depth m))).
  { apply concat_inj; auto.
    - intros ->. cbn in Hlen. lia.
    - intros E. apply (f_equal (@length _)) in E.
      rewrite length_map, slice_length in E by lia. cbn in E. lia.
    - apply Forall_map. eapply Forall_impl; [|exact Hsl].
      intros a Ha. destruct (isBound_key _ Ha) as (-> & H & _). exact H. }
  assert (Hv' : isBound v)
    by (rewrite Hval; apply Forall_nth; [exact Hb | lia]).
  destruct (isBound_key _ Hv') as (Hje & _).
  assert (Hj' : j < length xs).
  { destruct (Nat.eq_dec j (length xs)) as [->|]; [|lia].
    rewrite Nat.add_comm, Hlast in Hval. subst v t. discriminate. }
  exists (nth (S j + depth m) idx Undefined).
  apply pairsFrom_In. exists (S j). split; [lia|]. cbn [Nat.add].
  f_equal. unfold join. f_equal.
  change (S (j + depth m)) with (S j + depth m).
  rewrite (@slice_succ _ idx Undefined j (depth m)) by lia.
  rewrite map_tail, map_app, <- Hts. cbn [map].
  now rewrite <- Hval, Hje, Hv.
Qed.

Lemma trained_suffixesShaped xs m :
  wf m -> countsSound (counts m) ->
  suffixesShaped (counts m) -> suffixesShaped (counts (trained xs m)).
Proof.
  intros Hm Hc Hsh p s Hrec.
  destruct (string_dec s "_sum") as [->|Hs]; [now left|].
  destruct (trained_fields xs m) as (_ & _ & _ & _ & _ & _ & Hcounts & _).
  destruct (trained_pairs xs Hm) as (idx & Hl & Hb & Hlast & Hpairs).
  rewrite Hcounts in Hrec.
  apply (recorded_fold _ Hc (contributions_isLookup _ _) Hs) in Hrec.
  destruct Hrec as [Hrec|(v & Hin & Hv)]; [now apply (Hsh p)|].
  right. rewrite Hpairs in Hin.
  apply pairsFrom_In in Hin. destruct Hin as (j & Hj & E).
  inversion E as [[Hp Hval]]. exists v. split; [|now symmetry].
  rewrite Hval. apply Forall_nth; [exact Hb | lia].
Qed.

(** In every reachable model the suffix properties name indexes or
    inherited values and the chains are closed under succession. *)
Lemma reachable_chains m :
  reachable m ->
  suffixesShaped (counts m) /\ successorClosed (depth m) (counts m).
Proof.
  induction 1 as [d m H | xs m Hr IH | rand a b m Hr IH | xs m Hr IH
                 | m m' Hr IH H].
  - destruct (Markov_untrained _ H) as [n ->]. split.
    + intros p s (o & E & _). discriminate.
    + intros ts t _ _ _ _ (o & E & _). discriminate.
  - destruct IH as [I1 I2]. pose proof (reachable_wf Hr) as Hm.
    pose proof (reachable_counts_sound Hr) as Hc.
    fold (trained xs m). destruct (trained_fields xs m) as (Hd & _).
    rewrite Hd. split.
    + now apply trained_suffixesShaped.
    + now apply trained_successorClosed.
  - rewrite generate_state. now destruct (probabilities m).
  - rewrite score_eq. exact IH.
  - rewrite (fromJSON_eq (reachable_wf Hr)) in H. inversion H; subst.
    destruct (interned_fields (symbols m) (untrained (depth m)))
      as (Hd & _). cbv zeta in Hd. cbn in Hd |- *. rewrite Hd. exact IH.
Qed.

(** ** [generate] on a trained model *)

Lemma genSuffix_known m key o r :
  reachable m -> Obj.get (counts m) key = Some o ->
  genSuffix key r (refreshed m) = scan r (probsOf o).
Proof.
  intros Hr Hk. unfold genSuffix.
  rewrite refreshed_index, (indexOf_reachable Hr), (get_rebuild _ _ Hk).
  reflexivity.
Qed.

Lemma scan_In r probs s : scan r probs = Ok s -> In s (map snd probs).
Proof.
  intros H. apply scan_first_match in H.
  destruct H as (pre & upper & post & -> & _).
  rewrite map_app. apply in_or_app. right. now left.
Qed.

(** A genuine draw from a known state is a recorded suffix of it. *)
Lemma genuine_draw (rand : nat -> float) m key (k : nat) :
  reachable m ->
  (forall k, forallb (fun e => drawsGenuine (rand k) (snd e)) (indexOf m)
             = true) ->
  Obj.get (counts m) key <> None ->
  exists s, genSuffix key (rand k) (refreshed m) = Ok s /\
            s <> "_sum" /\ recorded (counts m) key s.
Proof.
  intros Hr Hsafe Hk.
  destruct (Obj.get (counts m) key) as [o|] eqn:E; [|congruence].
  rewrite (genSuffix_known _ (rand k) Hr E).
  specialize (Hsafe k). rewrite forallb_forall in Hsafe.
  assert (Hin : In (key, probsOf o) (indexOf m)).
  { apply get_In. rewrite (indexOf_reachable Hr). now apply get_rebuild. }
  specialize (Hsafe _ Hin). cbn [snd] in Hsafe. unfold drawsGenuine in Hsafe.
  destruct (scan (rand k) (probsOf o)) as [s| |] eqn:Es; try discriminate.
  exists s. split; [reflexivity|]. split.
  - intros ->. discriminate.
  - exists o. split; [exact E|].
    apply scan_In in Es. unfold probsOf in Es. rewrite cumulate_keys in Es.
    now apply ownKeys_sound.
Qed.

Lemma Forall_tl {A : Type} (P : A -> Prop) (l : list A) :
  Forall P l -> Forall P (tl l).
Proof. intros H. destruct l; [exact H | now inversion H]. Qed.

(** From a recorded pair on, with genuine draws, the loop of
    [generate] raises nothing: the window stays on recorded states. *)
Lemma generateLoop_safe rand m minLength maxLength :
  reachable m ->
  (forall k, forallb (fun e => drawsGenuine (rand k) (snd e)) (indexOf m)
             = true) ->
  forall fuel string pfx sfx zCount k e,
    length pfx = depth m ->
    Forall noComma (map joinElem pfx) ->
    recorded (counts m) (join "," pfx) sfx ->
    sfx <> "_sum" ->
    generateLoop rand fuel (refreshed m) minLength maxLength string pfx sfx
      zCount k <> Throw e.
Proof.
  intros Hr Hsafe. pose proof (reachable_wf Hr) as Hm.
  destruct (reachable_chains Hr) as [Hshape Hclosed].
  assert (Hsep : separator (refreshed m) = ",").
  { unfold refreshed. destruct (probabilities m); apply (wf_separator Hm). }
  induction fuel as [|fuel IH];
    intros string pfx sfx zCount k e Hlen Hpfx Hrec Hsum; [discriminate|].
  rewrite generateLoop_step, Hsep.
  destruct (_ || _); [|discriminate].
  destruct (neZero sfx) eqn:Hnz.
  - assert (Hnc : noComma sfx).
    { destruct (Hshape _ _ Hrec) as [->|(v & Hv & ->)]; [congruence|].
      now destruct (isBound_key _ Hv) as (_ & H & _). }
    assert (Hlen' : length (map joinElem pfx) = depth m)
      by now rewrite length_map.
    pose proof (Hclosed _ sfx Hlen' Hpfx Hnz Hsum Hrec) as Hnext.
    assert (Hkey : join "," (tl (pfx ++ [Str sfx]))
                   = String.concat "," (tl (map joinElem pfx ++ [sfx]))).
    { unfold join. now rewrite map_tail, map_app. }
    rewrite Hkey.
    destruct (@genuine_draw rand m _ k Hr Hsafe Hnext)
      as (s & -> & Hs & Hrec').
    apply IH.
    + destruct pfx as [|a pfx]; cbn [app tl length] in *;
        [destruct (wf_depth Hm); lia|].
      rewrite length_app. cbn [length]. lia.
    + rewrite map_tail, map_app. apply Forall_tl, Forall_app.
      split; [exact Hpfx | now repeat constructor].
    + now rewrite Hkey.
    + exact Hs.
  - destruct (15 <? zCount + 1)%Z; [discriminate|].
    assert (Hknown : Obj.get (counts m) (join "," pfx) <> None).
    { destruct Hrec as (o & -> & _). discriminate. }
    destruct (@genuine_draw rand m _ k Hr Hsafe Hknown)
      as (s & -> & Hs & Hrec').
    now apply IH.
Qed.

(** On a trained model, with genuine draws, [generate] reaches its
    [return]. *)
Lemma generateExit_returns rand m minLength maxLength :
  reachable m ->
  counts m <> Obj.empty ->
  (forall k, forallb (fun e => drawsGenuine (rand k) (snd e)) (indexOf m)
             = true) ->
  exists out zCount,
    generateExit rand minLength maxLength m = Ok (out, zCount).
Proof.
  intros Hr Hc Hsafe. pose proof (reachable_wf Hr) as Hm.
  destruct (reachable_start Hr) as [He|Hstart]; [contradiction|].
  unfold generateExit. rewrite refreshed_startKey.
  destruct (@genuine_draw rand m _ 0 Hr Hsafe Hstart) as (s & -> & Hs & Hrec).
  rewrite map_symbolToIndex.
  assert (Hpfx : indexesOf (refreshed m) (prePadding (refreshed m))
                 = repeat (Num 0) (depth m)).
  { replace (indexesOf (refreshed m) (prePadding (refreshed m)))
      with (indexesOf m (prePadding m))
      by (unfold refreshed; now destruct (probabilities m)).
    now rewrite (wf_prePadding Hm), (indexesOf_boundary _ Hm). }
  rewrite Hpfx.
  pose proof (@generateLoop_safe rand m minLength
                (maxLengthOr minLength maxLength) Hr Hsafe
                (generateFuel minLength (maxLengthOr minLength maxLength))
                [] (repeat (Num 0) (depth m)) s 0%Z 1) as Hsafe'.
  pose proof (@generateLoop_bound rand (refreshed m) minLength
                (maxLengthOr minLength maxLength)
                (generateFuel minLength (maxLengthOr minLength maxLength))
                [] (repeat (Num 0) (depth m)) s 0%Z 1) as Hb.
  cbn [length] in Hb. change (Z.of_nat 0) with 0%Z in Hb.
  specialize (Hb ltac:(lia) ltac:(lia)
                 ltac:(unfold generateFuel; lia)).
  destruct (generateLoop _ _ _ _ _ _ _ _ _ _) as [[out z]|e|].
  - now exists out, z.
  - exfalso.
    apply (Hsafe' e); [apply repeat_length | | | exact Hs | reflexivity].
    + apply Forall_map, Forall_forall. intros v Hv.
      apply repeat_spec in Hv. subst v. apply string_of_uint_noComma.
    + now rewrite (startKey_wf Hm) in Hrec.
  - contradiction.
Qed.

(** C6, as amended: on a model that was trained at least once, for
    all integers [0 <= minLength <= maxLength],
    [generate(minLength, maxLength)] returns a sequence of at most
    [maxLength] symbols whenever every draw selects a genuine suffix in
    every cumulative list of the index (the draws that run off a list
    or stop at the pair of the total ["_sum"], the slip of C1, are left
    out); the sequence is shorter than [minLength] only if the loop
    consumed more than 15 boundary draws.  On a model that was never
    trained [generate] returns no sequence: it raises a TypeError.  And
    whatever the draws, a sequence that [generate] returns has at most
    [maxLength] symbols. *)
Theorem generate_length (rand : nat -> float) (m : Model)
  (minLength maxLength : Z) :
  reachable m ->
  (0 <= minLength <= maxLength)%Z ->
  (counts m = Obj.empty ->
   fst (generate rand minLength (Some maxLength) m) = Throw TypeError) /\
  (counts m <> Obj.empty ->
   (forall k, forallb (fun e => drawsGenuine (rand k) (snd e)) (indexOf m)
              = true) ->
   exists out zCount,
     generateExit rand minLength (Some maxLength) m = Ok (out, zCount) /\
     fst (generate rand minLength (Some maxLength) m) = Ok out /\
     (Z.of_nat (length out) <= maxLength)%Z /\
     ((Z.of_nat (length out) < minLength)%Z -> (15 < zCount)%Z)) /\
  (forall out,
     fst (generate rand minLength (Some maxLength) m) = Ok out ->
     (Z.of_nat (length out) <= maxLength)%Z).
Proof.
  intros Hr Hmm.
  pose proof (@generateExit_bounds rand m minLength maxLength Hmm) as Hb.
  split; [|split].
  - intros Hc. apply generate_start_unseen.
    rewrite (indexOf_reachable Hr), Hc. reflexivity.
  - intros Hc Hsafe.
    destruct (@generateExit_returns rand m minLength (Some maxLength)
                Hr Hc Hsafe) as (out & z & E).
    exists out, z. rewrite E in Hb. split; [exact E | exact Hb].
  - intros out Hout.
    destruct (generateExit rand minLength (Some maxLength) m)
      as [[out' z]|e|]; [| |contradiction].
    + destruct Hb as (Hg & Hlen & _). rewrite Hg in Hout.
      inversion Hout; subst. exact Hlen.
    + destruct Hb as (_ & Hg). rewrite Hg in Hout. discriminate.
Qed.

Lemma generate_length_witness :
  fst (generate (fun _ => 0.5%float) 2 (Some 4%Z) (untrained 1))
  = Throw TypeError /\
  exists out zCount,
    generateExit (fun _ => 0.5%float) 2 (Some 4%Z)
      (trained ["a"; "b"; "a"] (untrained 1)) = Ok (out, zCount) /\
    fst (generate (fun _ => 0.5%float) 2 (Some 4%Z)
           (trained ["a"; "b"; "a"] (untrained 1))) = Ok out /\
    (Z.of_nat (length out) <= 4)%Z /\
    ((Z.of_nat (length out) < 2)%Z -> (15 < zCount)%Z).
Proof.
  split.
  - apply (@generate_length (fun _ => 0.5%float) (untrained 1) 2 4).
    + apply (reach_new (Some 1%Z)). reflexivity.
    + lia.
    + reflexivity.
  - apply (@generate_length (fun _ => 0.5%float)
             (trained ["a"; "b"; "a"] (untrained 1)) 2 4).
    + apply reach_train. apply (reach_new (Some 1%Z)). reflexivity.
    + lia.
    + discriminate.
    + intros k. vm_compute. reflexivity.
Defined.

(** X18: on a trained model [generate] cannot meet an unseen state by
    itself.  In a reachable model whose Chain Counter is not empty, if
    every draw selects a genuine suffix in every cumulative list (none
    runs off a list or stops at the pair of ["_sum"]), then every state
    the walk reaches has an entry and [generate] returns a sequence. *)
Theorem generate_succeeds (rand : nat -> float) (m : Model)
  (minLength : Z) (maxLength : option Z) :
  reachable m ->
  counts m <> Obj.empty ->
  (forall k, forallb (fun e => drawsGenuine (rand k) (snd e)) (indexOf m)
             = true) ->
  exists out, fst (generate rand minLength maxLength m) = Ok out.
Proof.
  intros Hr Hc Hsafe.
  destruct (@generateExit_returns rand m minLength maxLength Hr Hc Hsafe)
    as (out & z & E).
  exists out. unfold generate. cbn [fst]. now rewrite E.
Qed.

Lemma generate_succeeds_witness :
  exists out,
    fst (generate (fun _ => 0.5%float) 2 (Some 4%Z)
           (trained ["a"; "b"; "a"] (untrained 1))) = Ok out.
Proof.
  apply generate_succeeds.
  - apply reach_train. apply (reach_new (Some 1%Z)). reflexivity.
  - discriminate.
  - intros k. vm_compute. reflexivity.
Defined.

(** ** [score] on symbols the model has not seen *)

Lemma trained_prefixesShaped xs m :
  wf m -> countsSound (counts m) ->
  prefixesShaped (depth m) (counts m) ->
  prefixesShaped (depth m) (counts (trained xs m)).
Proof.
  intros Hm Hc Hsh p Hp.
  destruct (trained_fields xs m) as (_ & _ & _ & _ & _ & _ & Hcounts & _).
  destruct (trained_pairs xs Hm) as (idx & Hl & Hb & Hlast & Hpairs).
  rewrite Hcounts in Hp.
  apply (known_fold _ Hc (contributions_isLookup _ _)) in Hp.
  destruct Hp as [Hp|(v & Hin)]; [now apply Hsh|].
  rewrite Hpairs in Hin. apply pairsFrom_In in Hin.
  destruct Hin as (j & Hj & E). inversion E as [[Hp Hval]].
  cbn [Nat.add]. eexists. split; [|split; [|reflexivity]].
  - apply slice_length. lia.
  - now apply Forall_slice.
Qed.

Lemma reachable_prefixes m :
  reachable m -> prefixesShaped (depth m) (counts m).
Proof.
  induction 1 as [d m H | xs m Hr IH | rand a b m Hr IH | xs m Hr IH
                 | m m' Hr IH H].
  - destruct (Markov_untrained _ H) as [n ->]. intros p Hp. now cbn in Hp.
  - fold (trained xs m). destruct (trained_fields xs m) as (Hd & _).
    rewrite Hd. apply trained_prefixesShaped; auto.
    + now apply reachable_wf.
    + now apply reachable_counts_sound.
  - rewrite generate_state. now destruct (probabilities m).
  - rewrite score_eq. exact IH.
  - rewrite (fromJSON_eq (reachable_wf Hr)) in H. inversion H; subst.
    destruct (interned_fields (symbols m) (untrained (depth m)))
      as (Hd & _). cbv zeta in Hd. cbn in Hd |- *. rewrite Hd. exact IH.
Qed.

Lemma scoreSum_unrecorded c pairs : forall acc,
  (forall pr, In pr pairs -> ~ recorded c (fst pr) (toKey (snd pr))) ->
  scoreSum c pairs acc = acc.
Proof.
  unfold scoreSum. induction pairs as [|pr pairs IH]; intros acc H;
    [reflexivity|].
  cbn [fold_left]. rewrite IH by (intros; apply H; now right).
  destruct (Obj.get c (fst pr)) as [o|] eqn:E; [|reflexivity].
  destruct (Obj.get o (toKey (snd pr))) as [v|] eqn:E'; [|reflexivity].
  exfalso. apply (H pr (or_introl eq_refl)). exists o. split; congruence.
Qed.

Lemma indexesOf_unseen m xs :
  (forall x, In x xs -> fst (symbolToIndex x m) = Undefined) ->
  indexesOf m xs = repeat Undefined (length xs).
Proof.
  intros H. induction xs as [|x xs IH]; [reflexivity|].
  cbn [indexesOf map length repeat]. fold (indexesOf m xs).
  rewrite IH by (intros; apply H; now right).
  f_equal. apply (H x). now left.
Qed.

(** X19: unknown symbols cost the whole score and raise nothing.  On a
    reachable model, a non-empty input made only of symbols for which
    [symbolToIndex] yields [undefined] (they were never interned and
    [Object.prototype] does not name them) matches no recorded
    transition: every window has an unknown suffix or an unknown symbol
    in its prefix, the accumulated likelihood stays 0, and the score is
    [0 / n]. *)
Theorem score_unseen_symbols (xs : list string) (m : Model) :
  reachable m -> xs <> [] ->
  (forall x, In x xs -> fst (symbolToIndex x m) = Undefined) ->
  _score (snd (score xs m)) = Some 0%float /\
  fst (score xs m) = (0 / Z2float (Z.of_nat (length xs)))%float.
Proof.
  intros Hr Hne Hun. pose proof (reachable_wf Hr) as Hm.
  destruct (reachable_chains Hr) as [Hshape _].
  pose proof (reachable_prefixes Hr) as Hpre.
  assert (Hsum : scoreSum (counts m) (contributions m xs) 0%float = 0%float).
  { apply scoreSum_unrecorded. intros pr Hin (o & Hp & Hs).
    rewrite (contributions_wf xs Hm), (@indexesOf_unseen m xs Hun),
      (wf_separator Hm) in Hin.
    apply pairsFrom_In in Hin. destruct Hin as (j & Hj & ->).
    cbn [Nat.add fst snd] in Hp, Hs.
    set (idx := repeat (Num 0) (depth m) ++ repeat Undefined (length xs)
                  ++ [Num 0]) in *.
    assert (Hidx : Forall isLookup idx).
    { subst idx. repeat (apply Forall_app; split);
        try (apply Forall_forall; intros v Hv;
             apply repeat_spec in Hv; subst; exact I).
      repeat constructor. }
    assert (Hlen : length idx = depth m + length xs + 1).
    { subst idx. rewrite !length_app, !repeat_length. cbn [length]. lia. }
    assert (Hmid : forall i, depth m <= i < depth m + length xs ->
                             nth i idx (Num 0) = Undefined).
    { intros i Hi. subst idx. rewrite app_nth2; rewrite repeat_length; [|lia].
      rewrite app_nth1 by (rewrite repeat_length; lia).
      apply nth_repeat_lt. lia. }
    destruct (wf_depth Hm) as [Hd _].
    destruct (Nat.eq_dec j (length xs)) as [->|Hj'].
    - (* the last window: its prefix holds the last symbol *)
      destruct (Hpre _ ltac:(rewrite Hp; discriminate))
        as (vs & Hvs & Hb & Hkey).
      unfold join in Hkey. apply concat_inj in Hkey.
      + assert (Hnth : nth (depth m - 1)
                         (slice idx (length xs) (length xs + depth m)) (Num 0)
                       = Undefined).
        { unfold slice.
          destruct xs as [|x0 xs0]; [congruence|]. cbn [length] in *.
          rewrite nth_firstn.
          destruct (Nat.ltb_spec (depth m - 1)
                      (S (length xs0) + depth m - S (length xs0))); [|lia].
          rewrite nth_skipn. apply Hmid. lia. }
        assert (Hin : In Undefined
                        (slice idx (length xs) (length xs + depth m))).
        { rewrite <- Hnth. apply nth_In. rewrite slice_length; lia. }
        apply (in_map joinElem) in Hin. rewrite Hkey in Hin.
        apply in_map_iff in Hin. destruct Hin as (v & Hv & Hin).
        rewrite Forall_forall in Hb.
        destruct (isBound_key _ (Hb _ Hin)) as (E & _ & Hnn & _).
        cbn [joinElem] in Hv. congruence.
      + intros E. apply (f_equal (@length _)) in E.
        rewrite length_map, slice_length in E by lia. cbn in E. lia.
      + intros E. apply (f_equal (@length _)) in E.
        rewrite length_map, Hvs in E. cbn in E. lia.
      + apply Forall_map. eapply Forall_impl;
          [|exact (Forall_slice _ _ Hidx)].
        apply joinElem_lookup_noComma.
      + apply Forall_map. eapply Forall_impl; [|exact Hb].
        intros a Ha. destruct (isBound_key _ Ha) as (-> & H & _). exact H.
    - (* another window: its suffix is an unknown symbol *)
      assert (Hsfx : nth (j + depth m) idx Undefined = Undefined).
      { rewrite (nth_indep _ Undefined (Num 0)) by lia.
        apply Hmid. lia. }
      rewrite Hsfx in Hs. cbn [toKey] in Hs.
      destruct (Hshape _ "undefined" (ex_intro _ o (conj Hp Hs)))
        as [E|(v & Hv & E)]; [discriminate|].
      destruct (isBound_key _ Hv) as (_ & _ & _ & Hnu). congruence. }
  rewrite score_eq. cbn. now rewrite Hsum.
Qed.

Lemma score_unseen_symbols_witness :
  let m := trained ["a"; "toString"; "b"] (untrained 2) in
  _score (snd (score ["x"; "y"] m)) = Some 0%float /\
  fst (score ["x"; "y"] m)
  = (0 / Z2float (Z.of_nat (length ["x"; "y"])))%float.
Proof.
  apply score_unseen_symbols.
  - apply reach_train. apply (reach_new (Some 2%Z)). reflexivity.
  - discriminate.
  - intros x [<-|[<-|[]]]; reflexivity.
Defined.
